(** * Pole of inaccessibility: the branch-and-bound search of
      [calculations/poles.py], embedded and verified.

    The tool [PoleOfInaccessibilityTool.execute] reads a tolerance and a
    feature set, takes the first polygon, and either returns its centroid
    (degenerate case) or runs a best-first quadtree search driven by a
    [queue.PriorityQueue] of cells.

    Reading of the Python data:
    - a Python [float] is the rational number it denotes ([Q]), and the
      operations [+], [-], [*] and [/] on floats return the binary64
      number nearest to the exact result, ties to even, subnormal numbers
      included ([b64]); overflow, infinities, NaN and the sign of zero are
      outside this model.  The constant [math.sqrt(2)] and the literal
      [0.001] are the binary64 numbers Python reads them as; negation and
      comparisons are exact;
    - the host geometry ([arcpy]) is a record of the capabilities the code
      uses: extent, area, centroid, spatial reference and the distance from
      a point geometry to the polygon;
    - [time.time()] is a stream of readings, consumed one per call;
    - [queue.PriorityQueue] is its implementation: a list kept in heap
      order by [heapq.heappush] and [heapq.heappop], comparing entries with
      the tuple order of Python, which raises [TypeError] when it has to
      order two [Cell] objects;
    - the three [while] loops take fuel. *)

From Stdlib Require Import QArith Qminmax Qround Qabs Qpower Lqa Lia.
From stdpp Require Import base option list.

Local Open Scope Q_scope.

(** ** Outcomes of a run *)

Inductive exn : Type :=
  | UnboundLocalError   (* [polygon_geom] read before assignment *)
  | IndexError          (* pop from an empty list *)
  | TypeError.          (* ['<' not supported between 'Cell' and 'Cell'] *)

Inductive outcome (A : Type) : Type :=
  | Done (a : A)
  | Raised (e : exn)
  | OutOfFuel.
Arguments Done {A} a.
Arguments Raised {A} e.
Arguments OutOfFuel {A}.

#[export] Instance outcome_ret : MRet outcome := @Done.
#[export] Instance outcome_bind : MBind outcome := λ A B f m,
  match m with
  | Done a => f a
  | Raised e => Raised e
  | OutOfFuel => OutOfFuel
  end.

(** ** Numbers *)

(** [a < b] and [a > b] on floats. *)
Definition Qlt_bool (a b : Q) : bool := negb (Qle_bool b a).

(** *** binary64 arithmetic *)

(** [floor (log2 |q|)] for a number other than zero. *)
Definition ilog2 (q : Q) : Z :=
  let k := (Z.log2 (Z.abs (Qnum q)) - Z.log2 (Zpos (Qden q)))%Z in
  if Qle_bool (2 ^ k) (Qabs q) then k else (k - 1)%Z.

(** The integer nearest to [y]; half-way cases go to the even one. *)
Definition round_half_even (y : Q) : Z :=
  let f := Qfloor y in
  match Qcompare (y - inject_Z f) (1 # 2) with
  | Lt => f
  | Gt => (f + 1)%Z
  | Eq => if Z.even f then f else (f + 1)%Z
  end.

(** The exponent of the smallest subnormal number, [2 ^ -1074]. *)
Definition emin : Z := (-1074)%Z.

(** The binary64 number nearest to [q]: a significand of 53 bits at the
    exponent of [q], or at [emin] for a subnormal result. *)
Definition b64 (q : Q) : Q :=
  if Qeq_bool q 0 then 0
  else
    let e := Z.max (ilog2 q - 52) emin in
    Qred (inject_Z (round_half_even (q / 2 ^ e)) * 2 ^ e).

(** [a + b], [a - b], [a * b] and [a / b] on floats. *)
Definition fadd (a b : Q) : Q := b64 (a + b).
Definition fsub (a b : Q) : Q := b64 (a - b).
Definition fmul (a b : Q) : Q := b64 (a * b).
Definition fdiv (a b : Q) : Q := b64 (a / b).

Infix "⊕" := fadd (at level 50, left associativity).
Infix "⊖" := fsub (at level 50, left associativity).
Infix "⊗" := fmul (at level 40, left associativity).
Infix "⊘" := fdiv (at level 40, left associativity).

(** [math.sqrt(2)]: the binary64 value 0x3FF6A09E667F3BCD. *)
Definition sqrt2 : Q := 6369051672525773 # 4503599627370496.

(** The literal [0.001]: the binary64 value 0x3F50624DD2F1A9FC. *)
Definition default_tolerance : Q := 1152921504606847 # 1152921504606846976.

(** The builtins [min(a, b)] and [max(a, b)]: the first argument is kept
    unless the second is strictly smaller (resp. greater). *)
Definition py_min (a b : Q) : Q := if Qlt_bool b a then b else a.
Definition py_max (a b : Q) : Q := if Qlt_bool a b then b else a.

(** ** The host geometry *)

Module Point.
Record t : Type := make { X : Q; Y : Q }.
End Point.

Module Extent.
Record t : Type := make { XMin : Q; YMin : Q; XMax : Q; YMax : Q }.
End Extent.

Module Polygon.
(** What [execute] reads from a polygon geometry.  [distanceTo p] is
    [arcpy.PointGeometry(p, spatialReference).distanceTo(polygon_geom)]. *)
Record t : Type := make {
  extent : Extent.t;
  area : Q;
  centroid : Point.t;
  spatialReference : nat;
  distanceTo : Point.t → Q
}.
End Polygon.

(** ** Cells (lines 91-99) *)

Module Cell.
Record t : Type := make { x : Q; y : Q; h : Q; d : Q; max : Q }.

(** [Cell.__init__(self, x, y, h, polygon_geom)] *)
Definition init (x y h : Q) (polygon_geom : Polygon.t) : t :=
  let pt := Point.make x y in
  let d := Polygon.distanceTo polygon_geom pt in
  {| x := x; y := y; h := h; d := d; max := d ⊕ h ⊗ sqrt2 |}.
End Cell.

(** ** [heapq] over an arbitrary element type

    [lt a b] is Python's [a < b]; it may raise. *)

Section heapq.
Context {A : Type} (lt : A → A → outcome bool).

(** The loop of [_siftdown(heap, startpos, pos)] with [newitem] held out
    of the list.  [pos] strictly decreases, so fuel [pos] is enough. *)
Fixpoint siftdown_loop (fuel : nat) (heap : list A) (newitem : A)
    (startpos pos : nat) : outcome (list A) :=
  match fuel with
  | O => Done (<[pos := newitem]> heap)
  | S fuel' =>
      if (startpos <? pos)%nat then
        let parentpos := ((pos - 1) / 2)%nat in
        match heap !! parentpos with
        | None => Raised IndexError
        | Some parent =>
            b ← lt newitem parent;
            if b : bool
            then siftdown_loop fuel' (<[pos := parent]> heap) newitem startpos parentpos
            else Done (<[pos := newitem]> heap)
        end
      else Done (<[pos := newitem]> heap)
  end.

Definition siftdown (heap : list A) (startpos pos : nat) : outcome (list A) :=
  match heap !! pos with
  | None => Raised IndexError
  | Some newitem => siftdown_loop pos heap newitem startpos pos
  end.

(** [heappush(heap, item)] *)
Definition heappush (heap : list A) (item : A) : outcome (list A) :=
  siftdown (heap ++ [item]) 0 (length heap).

(** The loop of [_siftup(heap, pos)]: the smaller child is moved up until
    a leaf is reached; returns the list and the position of the hole. *)
Fixpoint siftup_loop (fuel : nat) (heap : list A) (pos : nat) : outcome (list A * nat) :=
  match fuel with
  | O => Done (heap, pos)
  | S fuel' =>
      let endpos := length heap in
      let childpos := (2 * pos + 1)%nat in
      if (childpos <? endpos)%nat then
        let rightpos := (childpos + 1)%nat in
        childpos' ←
          (if (rightpos <? endpos)%nat then
             match heap !! childpos, heap !! rightpos with
             | Some l, Some r =>
                 b ← lt l r; Done (if b : bool then childpos else rightpos)
             | _, _ => Raised IndexError
             end
           else Done childpos);
        match heap !! childpos' with
        | None => Raised IndexError
        | Some child => siftup_loop fuel' (<[pos := child]> heap) childpos'
        end
      else Done (heap, pos)
  end.

Definition siftup (heap : list A) (pos : nat) : outcome (list A) :=
  match heap !! pos with
  | None => Raised IndexError
  | Some newitem =>
      '(heap', pos') ← siftup_loop (length heap) heap pos;
      siftdown (<[pos' := newitem]> heap') pos pos'
  end.

(** [heappop(heap)]: the smallest item and the remaining heap. *)
Definition heappop (heap : list A) : outcome (A * list A) :=
  match last heap with
  | None => Raised IndexError
  | Some lastelt =>
      match removelast heap with
      | [] => Done (lastelt, [])
      | returnitem :: rest =>
          heap' ← siftup (lastelt :: rest) 0;
          Done (returnitem, heap')
      end
  end.
End heapq.

(** ** Frontier entries: the tuples [(-c.max, time.time(), c)] *)

Definition entry : Type := Q * Q * Cell.t.

(** Python's [a < b] on two such tuples.  The first components that differ
    (by [==]) decide; two distinct [Cell] objects are never [==] and have no
    [<], so a tie on both numbers raises. *)
Definition tuple_lt (a b : entry) : outcome bool :=
  let '(ka, ta, _) := a in
  let '(kb, tb, _) := b in
  if negb (Qeq_bool ka kb) then Done (Qlt_bool ka kb)
  else if negb (Qeq_bool ta tb) then Done (Qlt_bool ta tb)
  else Raised TypeError.

(** ** The state the search threads *)

Module Env.
Record t : Type := make {
  cell_queue : list entry;   (* [cell_queue.queue] *)
  clock_reads : nat;         (* calls of [time.time()] made so far *)
  pops : nat                 (* iterations of the main loop so far *)
}.
Definition start : t := {| cell_queue := []; clock_reads := 0; pops := 0 |}.
End Env.

Section run.
(** [clock k] is what the [k]-th call of [time.time()] returns. *)
Variable clock : nat → Q.
Variable polygon_geom : Polygon.t.
Variable tolerance : Q.

(** [cell_queue.put((-c.max, time.time(), c))] *)
Definition put (c : Cell.t) (s : Env.t) : outcome Env.t :=
  let item : entry := (- Cell.max c, clock (Env.clock_reads s), c) in
  q ← heappush tuple_lt (Env.cell_queue s) item;
  Done {| Env.cell_queue := q;
          Env.clock_reads := S (Env.clock_reads s);
          Env.pops := Env.pops s |}.

(** [_, _, cell = cell_queue.get()] *)
Definition get (s : Env.t) : outcome (Cell.t * Env.t) :=
  '(item, q) ← heappop tuple_lt (Env.cell_queue s);
  Done (item.2, {| Env.cell_queue := q;
                   Env.clock_reads := Env.clock_reads s;
                   Env.pops := S (Env.pops s) |}).

(** Lines 136-139: the four children of [cell]. *)
Definition children (cell : Cell.t) : list Cell.t :=
  let h := Cell.h cell ⊘ 2 in
  (λ '(dx, dy), Cell.init (Cell.x cell ⊕ dx) (Cell.y cell ⊕ dy) h polygon_geom)
    <$> [(- h, - h); (h, - h); (- h, h); (h, h)].

Fixpoint put_all (cs : list Cell.t) (s : Env.t) : outcome Env.t :=
  match cs with
  | [] => Done s
  | c :: cs' => s' ← put c s; put_all cs' s'
  end.

(** Lines 130-131. *)
Definition improve (best_cell cell : Cell.t) : Cell.t :=
  if Qlt_bool (Cell.d best_cell) (Cell.d cell) then cell else best_cell.

(** Line 133: the cell is dropped. *)
Definition prune (best_cell cell : Cell.t) : bool :=
  Qle_bool (Cell.max cell ⊖ Cell.d best_cell) tolerance.

(** One pass through the body of the main loop (lines 128-139). *)
Definition iteration (best_cell : Cell.t) (s : Env.t) : outcome (Cell.t * Env.t) :=
  '(cell, s1) ← get s;
  let best_cell := improve best_cell cell in
  if prune best_cell cell then Done (best_cell, s1)
  else s2 ← put_all (children cell) s1; Done (best_cell, s2).

(** Lines 127-139. *)
Fixpoint search (fuel : nat) (best_cell : Cell.t) (s : Env.t) : outcome (Cell.t * Env.t) :=
  match Env.cell_queue s with
  | [] => Done (best_cell, s)
  | _ :: _ =>
      match fuel with
      | O => OutOfFuel
      | S fuel' =>
          '(best_cell', s') ← iteration best_cell s;
          search fuel' best_cell' s'
      end
  end.

Definition min_x : Q := Extent.XMin (Polygon.extent polygon_geom).
Definition min_y : Q := Extent.YMin (Polygon.extent polygon_geom).
Definition max_x : Q := Extent.XMax (Polygon.extent polygon_geom).
Definition max_y : Q := Extent.YMax (Polygon.extent polygon_geom).
Definition width : Q := max_x ⊖ min_x.
Definition height : Q := max_y ⊖ min_y.
Definition cell_size : Q := py_min width height.
Definition max_dim : Q := py_max width height.

(** Lines 108-111: one column of the initial grid. *)
Fixpoint seed_column (fuel : nat) (x y : Q) (s : Env.t) : outcome Env.t :=
  if Qlt_bool y max_y then
    match fuel with
    | O => OutOfFuel
    | S fuel' =>
        let h := cell_size ⊘ 2 in
        s' ← put (Cell.init (x ⊕ h) (y ⊕ h) h polygon_geom) s;
        seed_column fuel' x (y ⊕ cell_size) s'
    end
  else Done s.

(** Lines 105-112: the initial grid; every column gets [budget] steps. *)
Fixpoint seed_grid (budget fuel : nat) (x : Q) (s : Env.t) : outcome Env.t :=
  if Qlt_bool x max_x then
    match fuel with
    | O => OutOfFuel
    | S fuel' =>
        s' ← seed_column budget x min_y s;
        seed_grid budget fuel' (x ⊕ cell_size) s'
    end
  else Done s.

(** Lines 115-119. *)
Definition get_centroid_cell : Cell.t :=
  let cent_pt := Polygon.centroid polygon_geom in
  Cell.init (Point.X cent_pt) (Point.Y cent_pt) 0 polygon_geom.

(** Lines 119-124: the first best cell. *)
Definition initial_best : Cell.t :=
  let best_cell := get_centroid_cell in
  let bbox_cell :=
    Cell.init (min_x ⊕ width ⊘ 2) (min_y ⊕ height ⊘ 2) 0 polygon_geom in
  if Qlt_bool (Cell.d best_cell) (Cell.d bbox_cell) then bbox_cell else best_cell.

(** Line 86. *)
Definition degenerate : bool :=
  Qeq_bool cell_size 0 || Qlt_bool (Polygon.area polygon_geom) (max_dim ⊗ tolerance).

(** Lines 86-141: the point written to the output, and the state of the
    search when it stops. *)
Definition locate (fuel : nat) : outcome (Point.t * Env.t) :=
  if degenerate then Done (Polygon.centroid polygon_geom, Env.start)
  else
    s ← seed_grid fuel fuel min_x Env.start;
    '(best_cell, s') ← search fuel initial_best s;
    Done (Point.make (Cell.x best_cell) (Cell.y best_cell), s').
End run.

(** ** [execute] *)

(** Line 63: [parameters[2].value if parameters[2].value else 0.001];
    [None] and zero are the falsy values. *)
Definition tolerance_of (value : option Q) : Q :=
  match value with
  | Some v => if Qeq_bool v 0 then default_tolerance else v
  | None => default_tolerance
  end.

(** Lines 69-72: the first row of the cursor, if there is one. *)
Definition first_feature (input_features : list Polygon.t) : outcome Polygon.t :=
  match input_features with
  | [] => Raised UnboundLocalError
  | polygon_geom :: _ => Done polygon_geom
  end.

Module Output.
(** The one-row point feature class written to [parameters[1]]. *)
Record t : Type := make { shape : Point.t; spatial_reference : nat }.
End Output.

Definition execute (clock : nat → Q) (tolerance_value : option Q)
    (input_features : list Polygon.t) (fuel : nat) : outcome (Output.t * Env.t) :=
  let tolerance := tolerance_of tolerance_value in
  polygon_geom ← first_feature input_features;
  '(pole_pt, s) ← locate clock polygon_geom tolerance fuel;
  Done ({| Output.shape := pole_pt;
           Output.spatial_reference := Polygon.spatialReference polygon_geom |}, s).


(** ** Sample inputs *)

(** The square with corners (0,0), (10,0), (10,10), (0,10).  Inside the
    square the distance to its boundary is the distance to the nearest
    side; the host returns the float nearest to it. *)
Definition square_distance (p : Point.t) : Q :=
  b64 (Qmin (Qmin (Point.X p) (10 - Point.X p)) (Qmin (Point.Y p) (10 - Point.Y p))).

Definition square : Polygon.t :=
  {| Polygon.extent := Extent.make 0 0 10 10;
     Polygon.area := 100;
     Polygon.centroid := Point.make 5 5;
     Polygon.spatialReference := 3857;
     Polygon.distanceTo := square_distance |}.

(** A polygon that has collapsed to the vertical segment from (3,0) to
    (3,8): no width, no area. *)
Definition sliver : Polygon.t :=
  {| Polygon.extent := Extent.make 3 0 3 8;
     Polygon.area := 0;
     Polygon.centroid := Point.make 3 4;
     Polygon.spatialReference := 3857;
     Polygon.distanceTo := λ _, 0 |}.

(** Two 10 x 10 squares, on [0,10] and on [20,30], joined by a corridor of
    width 2 around the line y = 5.  The distance is taken to the nearest
    side of the part (square or corridor) that serves the point best; at the
    centres (5,5), (15,5) and (25,5) of the three initial cells this is the
    distance to the boundary of the polygon. *)
Definition box_distance (x0 y0 x1 y1 : Q) (p : Point.t) : Q :=
  Qmin (Qmin (Point.X p - x0) (x1 - Point.X p)) (Qmin (Point.Y p - y0) (y1 - Point.Y p)).

Definition dumbbell_distance (p : Point.t) : Q :=
  b64 (Qmax (box_distance 0 0 10 10 p)
            (Qmax (box_distance 10 4 20 6 p) (box_distance 20 0 30 10 p))).

Definition dumbbell : Polygon.t :=
  {| Polygon.extent := Extent.make 0 0 30 10;
     Polygon.area := 220;
     Polygon.centroid := Point.make 15 5;
     Polygon.spatialReference := 3857;
     Polygon.distanceTo := dumbbell_distance |}.

(** Three clocks: one that advances between any two readings, one too
    coarse to advance during the run, and one that is set back after the
    first reading. *)
Definition steady (k : nat) : Q := inject_Z (Z.of_nat k).
Definition stalled (k : nat) : Q := 0.
Definition set_back (k : nat) : Q :=
  match k with
  | O => 100
  | S _ => inject_Z (Z.of_nat k)
  end.

(** The frontier of the square after seeding: its one initial cell. *)
Definition square_cell : Cell.t := Cell.init 5 5 5 square.
Definition square_seeded : Env.t :=
  {| Env.cell_queue := [(- Cell.max square_cell, steady 0, square_cell)];
     Env.clock_reads := 1;
     Env.pops := 0 |}.
Definition square_popped : Env.t :=
  {| Env.cell_queue := []; Env.clock_reads := 1; Env.pops := 1 |}.

(** A second clock that advances, with other readings. *)
Definition hurried (k : nat) : Q := inject_Z (Z.of_nat k) * (1 # 1000) + 1700000000.

(** A strip 30 wide and 0.002 high with area 0.03, all three as floats:
    [30.0 * 0.001] rounds to the float [0.03], so line 86 finds the area not
    below the product. *)
Definition strip : Polygon.t :=
  {| Polygon.extent := Extent.make 0 0 30 (b64 (2 # 1000));
     Polygon.area := b64 (3 # 100);
     Polygon.centroid := Point.make 15 (b64 (1 # 1000));
     Polygon.spatialReference := 3857;
     Polygon.distanceTo := λ _, 0 |}.

(** The float [1e-17]. *)
Definition tiny : Q := b64 (1 # 100000000000000000).

(** ** Notions used by the proofs *)

(** Two outcomes of the same kind, with related results. *)
Definition outcome_rel {A B : Type} (P : A → B → Prop)
    (m1 : outcome A) (m2 : outcome B) : Prop :=
  match m1, m2 with
  | Done a, Done b => P a b
  | Raised e1, Raised e2 => e1 = e2
  | OutOfFuel, OutOfFuel => True
  | _, _ => False
  end.

(** Every reading of the clock is later than the one before. *)
Definition advancing (clock : nat → Q) : Prop :=
  ∀ i j : nat, (i < j)%nat → clock i < clock j.

(** Two entries made for the same cell at the same insertion, under two
    clocks. *)
Definition same_insertion (clock1 clock2 : nat → Q) (e1 e2 : entry) : Prop :=
  ∃ (key : Q) (i : nat) (c : Cell.t),
    e1 = (key, clock1 i, c) ∧ e2 = (key, clock2 i, c).

(** Two states of the search that differ only by the clock. *)
Definition same_search (clock1 clock2 : nat → Q) (s1 s2 : Env.t) : Prop :=
  Forall2 (same_insertion clock1 clock2) (Env.cell_queue s1) (Env.cell_queue s2) ∧
  Env.clock_reads s1 = Env.clock_reads s2 ∧
  Env.pops s1 = Env.pops s2.

(** [P] holds between any two items of the list (at different places). *)
Definition pairwise {A : Type} (P : A → A → Prop) (l : list A) : Prop :=
  ∀ x y k, l ≡ₚ x :: y :: k → P x y.

(** [lt a b] returns. *)
Definition comparable {A : Type} (lt : A → A → outcome bool) (a b : A) : Prop :=
  ∃ r : bool, lt a b = Done r.

Definition entry_time (e : entry) : Q := e.1.2.
Definition entry_cell (e : entry) : Cell.t := e.2.

(** The cells waiting in the frontier. *)
Definition cells (s : Env.t) : list Cell.t := entry_cell <$> Env.cell_queue s.

(** The entries of the frontier were stamped at different readings of the
    clock, all of them earlier than the next reading. *)
Definition well_stamped (clock : nat → Q) (s : Env.t) : Prop :=
  pairwise (λ a b, ¬ entry_time a == entry_time b) (Env.cell_queue s) ∧
  Forall (λ e, entry_time e < clock (Env.clock_reads s)) (Env.cell_queue s).

(** ** Floats *)

(** [f] is a binary64 number: rounding leaves it as it is. *)
Definition representable (f : Q) : Prop := b64 f == f.

(** [f] has a significand of at most 53 bits at an exponent not below
    [emin]. *)
Definition is_float (f : Q) : Prop :=
  ∃ m e : Z, (emin ≤ e)%Z ∧ (Z.abs m ≤ 2 ^ 53)%Z ∧ f == inject_Z m * 2 ^ e.

(** ** The measure of the search *)

(** The number of nodes of the complete quadtree of depth [r]. *)
Fixpoint nodes (r : nat) : nat :=
  match r with
  | O => 1
  | S r' => 4 * nodes r' + 1
  end.

(** [h] after [k] divisions by two, each one rounded. *)
Fixpoint halvings (k : nat) (h : Q) : Q :=
  match k with
  | O => h
  | S k' => halvings k' (h ⊘ 2)
  end.

(** How many times [h] is halved before it is zero, counted up to [k]. *)
Fixpoint rank (k : nat) (h : Q) : nat :=
  match k with
  | O => O
  | S k' => if Qeq_bool h 0 then O else S (rank k' (h ⊘ 2))
  end.

(** [k] halvings bring [h] down to zero. *)
Definition fits (k : nat) (h : Q) : Prop := halvings k h == 0.

(** The largest number of iterations a waiting cell can still cause. *)
Definition weight (k : nat) (c : Cell.t) : nat := nodes (rank k (Cell.h c)).

(** A cell as [Cell.__init__] builds it from a float distance, small enough
    for depth [k]. *)
Definition sound_cell (k : nat) (c : Cell.t) : Prop :=
  Cell.max c == Cell.d c ⊕ Cell.h c ⊗ sqrt2 ∧ representable (Cell.d c) ∧
  fits k (Cell.h c).

(** The bounding box is not inside out. *)
Definition valid_extent (polygon_geom : Polygon.t) : Prop :=
  min_x polygon_geom <= max_x polygon_geom ∧ min_y polygon_geom <= max_y polygon_geom.

(** ** Notions for the further properties *)

(** The outcome is not an exception, and a result satisfies [P]. *)
Definition safe {A : Type} (P : A → Prop) (m : outcome A) : Prop :=
  match m with
  | Done a => P a
  | Raised _ => False
  | OutOfFuel => True
  end.

(** If the outcome is an exception, it is [TypeError]. *)
Definition raises_at_most_TypeError {A : Type} (m : outcome A) : Prop :=
  ∀ e : exn, m = Raised e → e = TypeError.

(** The state of the square's search after its first iteration at
    tolerance 0.1: the first cell has been replaced by its four children. *)
Definition square_split : Env.t :=
  Eval vm_compute in
    match iteration steady square (1 # 10) (initial_best square) square_seeded with
    | Done (_, s) => s
    | _ => Env.start
    end.

(** A cell as [Cell.__init__] leaves it for this polygon. *)
Definition genuine (polygon_geom : Polygon.t) (c : Cell.t) : Prop :=
  Cell.d c = Polygon.distanceTo polygon_geom (Point.make (Cell.x c) (Cell.y c)) ∧
  Cell.max c = Cell.d c ⊕ Cell.h c ⊗ sqrt2.

(** Cells pushed so far = cells popped so far + cells waiting. *)
Definition balanced (s : Env.t) : Prop :=
  (Env.pops s + length (Env.cell_queue s) = Env.clock_reads s)%nat.

(** The frontier of the square as lines 105-112 leave it. *)
Definition square_grid : Env.t :=
  Eval vm_compute in
    match seed_grid steady square 1 1 (min_x square) Env.start with
    | Done s => s
    | _ => Env.start
    end.

(** ** Heap order *)

(** The position above [i] in the heap. *)
Definition parent (i : nat) : nat := ((i - 1) / 2)%nat.

(** Every item is at least the item above it. *)
Definition heap_ordered {A : Type} (le : A → A → Prop) (l : list A) : Prop :=
  ∀ i x p, (0 < i)%nat → l !! i = Some x → l !! parent i = Some p → le p x.

(** Heap order on the pairs that do not involve position [pos]. *)
Definition ordered_off {A : Type} (le : A → A → Prop) (pos : nat) (l : list A) : Prop :=
  ∀ i x p, (0 < i)%nat → i ≠ pos → parent i ≠ pos →
           l !! i = Some x → l !! parent i = Some p → le p x.

(** [x] may stand at [pos]: it is at most the items just below [pos]. *)
Definition fits_above {A : Type} (le : A → A → Prop) (pos : nat) (x : A) (l : list A) : Prop :=
  ∀ c a, (0 < c)%nat → parent c = pos → l !! c = Some a → le x a.

(** The order of the entries: by key, then by reading. *)
Definition entry_le (a b : entry) : Prop :=
  a.1.1 < b.1.1 ∨ (a.1.1 == b.1.1 ∧ a.1.2 <= b.1.2).

(** The frontier is a heap of entries keyed by [-c.max]. *)
Definition frontier_ok (s : Env.t) : Prop :=
  heap_ordered entry_le (Env.cell_queue s) ∧
  Forall (λ e : entry, e.1.1 = - Cell.max e.2) (Env.cell_queue s).

(** [n] passes through the body of the main loop (lines 128-139), one after
    the other; a pass on an empty frontier raises, so a result means that
    the loop of line 127 made these [n] passes. *)
Fixpoint passes (clock : nat → Q) (polygon_geom : Polygon.t) (tolerance : Q)
    (n : nat) (best_cell : Cell.t) (s : Env.t) : outcome (Cell.t * Env.t) :=
  match n with
  | O => Done (best_cell, s)
  | S n' =>
      '(best_cell', s') ← iteration clock polygon_geom tolerance best_cell s;
      passes clock polygon_geom tolerance n' best_cell' s'
  end.

(** The state of the square's search at tolerance 0.1 after five passes. *)
Definition square_fifth : Cell.t * Env.t :=
  Eval vm_compute in
    match passes steady square (1 # 10) 5 (initial_best square) square_grid with
    | Done r => r
    | _ => (initial_best square, Env.start)
    end.

(** What the sixth [get] of that search returns and leaves. *)
Definition square_sixth_get : Cell.t * Env.t :=
  Eval vm_compute in
    match get square_fifth.2 with
    | Done r => r
    | _ => (square_cell, Env.start)
    end.

(** At tolerance 2 the second [get] of the square's search returns a cell
    that line 133 drops: the state after the first pass, what the second
    [get] returns and leaves, and the end of the search from there. *)
Definition square_coarse : Cell.t * Env.t :=
  Eval vm_compute in
    match passes steady square 2 1 (initial_best square) square_grid with
    | Done r => r
    | _ => (initial_best square, Env.start)
    end.

Definition square_coarse_get : Cell.t * Env.t :=
  Eval vm_compute in
    match get square_coarse.2 with
    | Done r => r
    | _ => (square_cell, Env.start)
    end.

Definition square_coarse_end : Cell.t * Env.t :=
  Eval vm_compute in
    match search steady square 2 10
            (improve square_coarse.1 square_coarse_get.1) square_coarse_get.2 with
    | Done r => r
    | _ => (square_cell, Env.start)
    end.

(** * Properties of the arithmetic *)

(** ** Powers of two *)

Lemma two_pow_pos (e : Z) : 0 < 2 ^ e.
Proof. apply Qpower_0_lt. reflexivity. Qed.

Lemma two_pow_plus (a b : Z) : 2 ^ (a + b) == 2 ^ a * 2 ^ b.
Proof. apply Qpower_plus. discriminate. Qed.

Lemma two_pow_le (a b : Z) : (a ≤ b)%Z → 2 ^ a <= 2 ^ b.
Proof. intros H. apply Qpower_le_compat_l; [exact H | discriminate]. Qed.

Lemma two_pow_inject (z : Z) : (0 ≤ z)%Z → 2 ^ z == inject_Z (2 ^ z).
Proof. intros H. symmetry. apply (Zpower_Qpower 2 z H). Qed.

Lemma two_pow_S (a : Z) : 2 ^ (a + 1) == 2 * 2 ^ a.
Proof. rewrite two_pow_plus. change (2 ^ 1) with 2. ring. Qed.

Lemma Qabs_spec (a : Q) : (0 <= a ∧ Qabs a == a) ∨ (a < 0 ∧ Qabs a == - a).
Proof.
  destruct (Qlt_le_dec a 0) as [H|H].
  - right. split; [exact H|]. apply Qabs_neg. lra.
  - left. split; [exact H|]. apply Qabs_pos. exact H.
Qed.

(** ** The exponent *)

Lemma ilog2_spec (q : Q) :
  ¬ q == 0 → 2 ^ ilog2 q <= Qabs q ∧ Qabs q < 2 ^ (ilog2 q + 1).
Proof.
  intros Hq. unfold ilog2.
  set (n := Z.abs (Qnum q)). set (d := Z.pos (Qden q)).
  set (k := (Z.log2 n - Z.log2 d)%Z).
  assert (Hn : (0 < n)%Z).
  { unfold n. destruct q as [[|p|p] dq]; simpl; try lia.
    exfalso. apply Hq. reflexivity. }
  assert (Hd : (0 < d)%Z) by (unfold d; lia).
  destruct (Z.log2_spec n Hn) as [Hn1 Hn2]. destruct (Z.log2_spec d Hd) as [Hd1 Hd2].
  pose proof (Z.log2_nonneg n) as Hln. pose proof (Z.log2_nonneg d) as Hld.
  assert (Eabs : Qabs q * inject_Z d == inject_Z n).
  { unfold n, d. destruct q as [a b]. unfold Qabs, Qeq, Qmult, inject_Z. simpl. lia. }
  set (x := Qabs q) in *.
  set (A := 2 ^ Z.log2 n). set (B := 2 ^ Z.log2 d).
  assert (HA : 0 < A) by apply two_pow_pos. assert (HB : 0 < B) by apply two_pow_pos.
  assert (HnA : A <= inject_Z n).
  { unfold A. rewrite two_pow_inject by lia. rewrite <- Zle_Qle. exact Hn1. }
  assert (HnA' : inject_Z n < 2 * A).
  { unfold A. rewrite <- two_pow_S. unfold Z.succ in Hn2.
    rewrite two_pow_inject by lia. rewrite <- Zlt_Qlt. exact Hn2. }
  assert (HdB : B <= inject_Z d).
  { unfold B. rewrite two_pow_inject by lia. rewrite <- Zle_Qle. exact Hd1. }
  assert (HdB' : inject_Z d < 2 * B).
  { unfold B. rewrite <- two_pow_S. unfold Z.succ in Hd2.
    rewrite two_pow_inject by lia. rewrite <- Zlt_Qlt. exact Hd2. }
  assert (Hk : 2 ^ k * B == A).
  { unfold k, A, B. rewrite <- two_pow_plus. apply Qpower_comp; [reflexivity | lia]. }
  assert (Hk1 : 2 ^ (k + 1) == 2 * 2 ^ k) by apply two_pow_S.
  assert (Hk0 : 2 ^ k == 2 * 2 ^ (k - 1)).
  { rewrite <- two_pow_S. apply Qpower_comp; [reflexivity | lia]. }
  pose proof (two_pow_pos k) as Hpk. pose proof (two_pow_pos (k - 1)) as Hpk'.
  set (P := 2 ^ k) in *. set (P' := 2 ^ (k - 1)) in *.
  set (D := inject_Z d) in *. set (N := inject_Z n) in *.
  assert (HD : 0 < D) by lra.
  assert (Hx : 0 <= x) by apply Qabs_nonneg.
  assert (Hup : x < 2 * P).
  { destruct (Qlt_le_dec x (2 * P)) as [H|H]; [exact H|]. exfalso.
    assert (2 * P * B <= x * D) by nra. nra. }
  assert (Hlow : P' <= x).
  { destruct (Qlt_le_dec x P') as [H|H]; [|exact H]. exfalso.
    assert (x * D <= P' * D) by nra.
    assert (P' * D < P' * (2 * B)) by nra. nra. }
  destruct (Qle_bool P x) eqn:E.
  - apply Qle_bool_iff in E. split; [exact E|]. rewrite Hk1. exact Hup.
  - split; [exact Hlow|].
    assert (Hnot : ¬ P <= x) by (intros H; apply Qle_bool_iff in H; congruence).
    assert (E1 : 2 ^ (k - 1 + 1) == P).
    { unfold P. apply Qpower_comp; [reflexivity | lia]. }
    rewrite E1. lra.
Qed.

(** ** Rounding to the nearest integer *)

Lemma round_half_even_cases (y : Q) :
  round_half_even y = Qfloor y ∨ round_half_even y = (Qfloor y + 1)%Z.
Proof.
  unfold round_half_even. destruct (Qcompare _ _); [destruct (Z.even _)|..]; auto.
Qed.

Lemma round_half_even_nearest (y : Q) (z : Z) :
  Qabs (inject_Z (round_half_even y) - y) <= Qabs (inject_Z z - y).
Proof.
  pose proof (Qfloor_le y) as Hf1. pose proof (Qlt_floor y) as Hf2.
  rewrite inject_Z_plus in Hf2. change (inject_Z 1) with 1 in Hf2.
  assert (Hz : inject_Z z <= inject_Z (Qfloor y) ∨ inject_Z (Qfloor y) + 1 <= inject_Z z).
  { destruct (Z_le_gt_dec z (Qfloor y)) as [H|H].
    - left. rewrite <- Zle_Qle. exact H.
    - right. change 1 with (inject_Z 1). rewrite <- inject_Z_plus, <- Zle_Qle. lia. }
  unfold round_half_even.
  destruct (Qcompare (y - inject_Z (Qfloor y)) (1 # 2)) eqn:E.
  - apply Qeq_alt in E.
    destruct (Z.even (Qfloor y)); [|rewrite inject_Z_plus; change (inject_Z 1) with 1];
      destruct (Qabs_spec (inject_Z z - y)) as [[? ->] | [? ->]];
      match goal with |- Qabs ?a <= _ => destruct (Qabs_spec a) as [[? ->] | [? ->]] end;
      destruct Hz; lra.
  - apply Qlt_alt in E.
    destruct (Qabs_spec (inject_Z z - y)) as [[? ->] | [? ->]];
      match goal with |- Qabs ?a <= _ => destruct (Qabs_spec a) as [[? ->] | [? ->]] end;
      destruct Hz; lra.
  - apply Qgt_alt in E. rewrite inject_Z_plus. change (inject_Z 1) with 1.
    destruct (Qabs_spec (inject_Z z - y)) as [[? ->] | [? ->]];
      match goal with |- Qabs ?a <= _ => destruct (Qabs_spec a) as [[? ->] | [? ->]] end;
      destruct Hz; lra.
Qed.

Lemma round_half_even_comp (y y' : Q) : y == y' → round_half_even y = round_half_even y'.
Proof.
  intros E. unfold round_half_even. rewrite (Qfloor_comp _ _ E).
  assert (E' : y - inject_Z (Qfloor y') == y' - inject_Z (Qfloor y')) by (rewrite E; reflexivity).
  rewrite (Qcompare_comp _ _ E' (1 # 2) (1 # 2) (Qeq_refl _)). reflexivity.
Qed.

(** ** binary64 *)

Lemma ilog2_unique (q : Q) (L : Z) :
  2 ^ L <= Qabs q → Qabs q < 2 ^ (L + 1) → ilog2 q = L.
Proof.
  intros H1 H2.
  assert (Hq : ¬ q == 0).
  { intros E. rewrite E in H1. pose proof (two_pow_pos L). change (Qabs 0) with 0 in H1. lra. }
  destruct (ilog2_spec q Hq) as [H3 H4].
  assert (HL : (L < ilog2 q + 1)%Z).
  { apply (Qpower_lt_compat_l_inv 2); [lra | reflexivity]. }
  assert (HL' : (ilog2 q < L + 1)%Z).
  { apply (Qpower_lt_compat_l_inv 2); [lra | reflexivity]. }
  lia.
Qed.

Lemma ilog2_comp (q q' : Q) : q == q' → ¬ q == 0 → ilog2 q = ilog2 q'.
Proof.
  intros E Hq. destruct (ilog2_spec q Hq) as [H1 H2].
  symmetry. apply ilog2_unique; rewrite <- E; assumption.
Qed.

Lemma b64_comp (q q' : Q) : q == q' → b64 q = b64 q'.
Proof.
  intros E. unfold b64.
  destruct (Qeq_bool q 0) eqn:E0, (Qeq_bool q' 0) eqn:E0'; [reflexivity|..].
  - exfalso. apply Qeq_bool_iff in E0. apply Qeq_bool_neq in E0'. apply E0'.
    rewrite <- E. exact E0.
  - exfalso. apply Qeq_bool_iff in E0'. apply Qeq_bool_neq in E0. apply E0.
    rewrite E. exact E0'.
  - apply Qeq_bool_neq in E0. rewrite <- (ilog2_comp q q' E E0).
    apply Qred_complete.
    rewrite (round_half_even_comp (q / 2 ^ Z.max (ilog2 q - 52) emin)
                                  (q' / 2 ^ Z.max (ilog2 q - 52) emin)); [reflexivity|].
    unfold Qdiv. apply Qmult_comp; [exact E | reflexivity].
Qed.

#[export] Instance b64_proper : Proper (Qeq ==> Qeq) b64.
Proof. intros q q' E. rewrite (b64_comp q q' E). reflexivity. Qed.

Lemma b64_0 : b64 0 = 0.
Proof. reflexivity. Qed.

(** What [b64] returns for a number other than zero. *)
Lemma b64_unfold (x : Q) :
  ¬ x == 0 →
  ∃ (e m : Z), (emin ≤ e)%Z ∧ (Z.abs m ≤ 2 ^ 53)%Z ∧
    b64 x == inject_Z m * 2 ^ e ∧
    (∀ z : Z, Qabs (inject_Z m * 2 ^ e - x) <= Qabs (inject_Z z * 2 ^ e - x)) ∧
    ((emin < e)%Z → 2 ^ (e + 52) <= Qabs x).
Proof.
  intros Hx. destruct (ilog2_spec x Hx) as [H1 H2].
  set (L := ilog2 x) in *. set (e := Z.max (L - 52) emin).
  set (y := x / 2 ^ e). set (m := round_half_even y).
  pose proof (two_pow_pos e) as He.
  assert (Hxy : x == y * 2 ^ e) by (unfold y; field; lra).
  exists e, m. split; [apply Z.le_max_r|]. split; [|split; [|split]].
  - (* the significand fits *)
    assert (Hy : Qabs y < inject_Z (2 ^ 53)).
    { rewrite <- two_pow_inject by lia.
      assert (Hle : 2 ^ (L + 1) <= 2 ^ (e + 53)) by (apply two_pow_le; unfold e; lia).
      rewrite (two_pow_plus e 53) in Hle.
      assert (Ey : Qabs x == Qabs y * 2 ^ e).
      { rewrite Hxy, Qabs_Qmult. rewrite (Qabs_pos (2 ^ e)) by lra. reflexivity. }
      destruct (Qlt_le_dec (Qabs y) (2 ^ 53)) as [?|Hge]; [assumption|]. exfalso.
      assert (2 ^ 53 * 2 ^ e <= Qabs y * 2 ^ e)
        by (apply Qmult_le_compat_r; [exact Hge | lra]).
      set (p := 2 ^ e) in *. set (c := 2 ^ 53) in *. lra. }
    pose proof (Qfloor_le y) as Hf1. pose proof (Qlt_floor y) as Hf2.
    assert (Hlo : (- 2 ^ 53 ≤ Qfloor y)%Z).
    { destruct (Z_le_gt_dec (- 2 ^ 53) (Qfloor y)) as [?|Hgt]; [assumption|]. exfalso.
      assert (Hz : (Qfloor y + 1 ≤ - 2 ^ 53)%Z) by lia.
      rewrite Zle_Qle in Hz. rewrite inject_Z_opp in Hz.
      destruct (Qabs_spec y) as [[? Ea] | [? Ea]]; rewrite Ea in Hy; lra. }
    assert (Hhi : (Qfloor y < 2 ^ 53)%Z).
    { rewrite Zlt_Qlt. destruct (Qabs_spec y) as [[? Ea] | [? Ea]]; rewrite Ea in Hy; lra. }
    unfold m. destruct (round_half_even_cases y) as [-> | ->]; lia.
  - (* the value *)
    unfold b64. assert (E0 : Qeq_bool x 0 = false).
    { destruct (Qeq_bool x 0) eqn:E; [|reflexivity]. apply Qeq_bool_iff in E. contradiction. }
    rewrite E0. rewrite Qred_correct. reflexivity.
  - (* nearest among the multiples of [2 ^ e] *)
    intros z. pose proof (round_half_even_nearest y z) as Hn. fold m in Hn.
    assert (E1 : inject_Z m * 2 ^ e - x == (inject_Z m - y) * 2 ^ e) by (rewrite Hxy; ring).
    assert (E2 : inject_Z z * 2 ^ e - x == (inject_Z z - y) * 2 ^ e) by (rewrite Hxy; ring).
    rewrite E1, E2, !Qabs_Qmult, (Qabs_pos (2 ^ e)) by lra.
    apply Qmult_le_compat_r; [exact Hn | lra].
  - intros Hlt. assert (Ee : (e + 52)%Z = L) by (unfold e in *; lia).
    rewrite Ee. exact H1.
Qed.

Lemma b64_is_float (x : Q) : is_float (b64 x).
Proof.
  destruct (Qeq_dec x 0) as [E|Hx].
  - rewrite (b64_comp x 0 E). exists 0%Z, 0%Z. split; [unfold emin; lia|].
    split; [simpl; lia | reflexivity].
  - destruct (b64_unfold x Hx) as (e & m & He & Hm & Hv & _).
    exists m, e. auto.
Qed.

Lemma float_multiple (m e' e : Z) :
  (e ≤ e')%Z → ∃ z : Z, inject_Z m * 2 ^ e' == inject_Z z * 2 ^ e.
Proof.
  intros H. exists (m * 2 ^ (e' - e))%Z.
  rewrite inject_Z_mult, <- two_pow_inject by lia.
  rewrite <- Qmult_assoc, <- two_pow_plus.
  apply Qmult_comp; [reflexivity|]. apply Qpower_comp; [reflexivity | lia].
Qed.

(** No float is nearer to [x] than [b64 x]. *)
Lemma b64_nearest (x f : Q) :
  is_float f → Qabs (b64 x - x) <= Qabs (f - x).
Proof.
  intros (m' & e' & He' & Hm' & Ef).
  destruct (Qeq_dec x 0) as [E|Hx].
  { rewrite (b64_comp x 0 E), E. change (b64 0) with 0.
    setoid_replace (0 - 0) with 0 using relation Qeq by ring. apply Qabs_nonneg. }
  destruct (b64_unfold x Hx) as (e & m & He & Hm & Hv & Hnear & Hbig).
  rewrite Hv, Ef.
  destruct (Z_le_gt_dec e e') as [Hle|Hgt].
  - destruct (float_multiple m' e' e Hle) as [z Ez]. rewrite Ez. apply Hnear.
  - (* a float on a finer grid is no nearer than the power of two below [x] *)
    assert (Hlt : (emin < e)%Z) by lia. specialize (Hbig Hlt).
    assert (Hf : Qabs (inject_Z m' * 2 ^ e') <= 2 ^ (e + 52)).
    { rewrite Qabs_Qmult, (Qabs_pos (2 ^ e')) by (pose proof (two_pow_pos e'); lra).
      assert (H53 : Qabs (inject_Z m') <= 2 ^ 53).
      { rewrite two_pow_inject by lia.
        destruct (Qabs_spec (inject_Z m')) as [[_ ->] | [_ ->]];
          [|rewrite <- inject_Z_opp]; rewrite <- Zle_Qle; lia. }
      assert (Hp : 2 ^ 53 * 2 ^ e' <= 2 ^ (e + 52)).
      { rewrite <- two_pow_plus. apply two_pow_le. lia. }
      pose proof (two_pow_pos e').
      apply (Qle_trans _ (2 ^ 53 * 2 ^ e')); [|exact Hp].
      apply Qmult_le_compat_r; [exact H53 | lra]. }
    assert (Eg : 2 ^ (e + 52) == inject_Z (2 ^ 52) * 2 ^ e).
    { rewrite <- two_pow_inject by lia. rewrite <- two_pow_plus.
      apply Qpower_comp; [reflexivity | lia]. }
    set (g := 2 ^ (e + 52)) in *. set (fv := inject_Z m' * 2 ^ e') in *.
    destruct (Qabs_spec x) as [[Hx0 Ea] | [Hx0 Ea]]; rewrite Ea in Hbig.
    + pose proof (Hnear (2 ^ 52)%Z) as Hn. rewrite <- Eg in Hn.
      apply (Qle_trans _ _ _ Hn).
      destruct (Qabs_spec fv) as [[? Eb] | [? Eb]]; rewrite Eb in Hf;
        destruct (Qabs_spec (g - x)) as [[? ->] | [? ->]];
        destruct (Qabs_spec (fv - x)) as [[? ->] | [? ->]]; lra.
    + pose proof (Hnear (- 2 ^ 52)%Z) as Hn.
      rewrite inject_Z_opp in Hn.
      setoid_replace (- inject_Z (2 ^ 52) * 2 ^ e) with (- g) using relation Qeq in Hn by (rewrite Eg; ring).
      apply (Qle_trans _ _ _ Hn).
      destruct (Qabs_spec fv) as [[? Eb] | [? Eb]]; rewrite Eb in Hf;
        destruct (Qabs_spec (- g - x)) as [[? ->] | [? ->]];
        destruct (Qabs_spec (fv - x)) as [[? ->] | [? ->]]; lra.
Qed.

(** A float is not changed by rounding. *)
Lemma b64_float (f : Q) : is_float f → b64 f == f.
Proof.
  intros Hf. pose proof (b64_nearest f f Hf) as H.
  setoid_replace (f - f) with 0 using relation Qeq in H by ring. change (Qabs 0) with 0 in H.
  destruct (Qabs_spec (b64 f - f)) as [[? E] | [? E]]; rewrite E in H; lra.
Qed.

Lemma b64_idempotent (x : Q) : b64 (b64 x) == b64 x.
Proof. apply b64_float, b64_is_float. Qed.

(** Rounding keeps the order. *)
Lemma b64_monotone (x y : Q) : x <= y → b64 x <= b64 y.
Proof.
  intros Hxy. destruct (Qeq_dec x y) as [E|Hne].
  { rewrite (b64_comp x y E). apply Qle_refl. }
  assert (Hlt' : x < y).
  { destruct (Qlt_le_dec x y) as [?|Hge]; [assumption|]. exfalso. apply Hne. lra. }
  pose proof (b64_nearest x (b64 y) (b64_is_float y)) as Hx.
  pose proof (b64_nearest y (b64 x) (b64_is_float x)) as Hy.
  destruct (Qlt_le_dec (b64 y) (b64 x)) as [Hlt|]; [|assumption]. exfalso.
  destruct (Qabs_spec (b64 x - x)) as [[? Ea] | [? Ea]]; rewrite Ea in Hx;
    destruct (Qabs_spec (b64 y - x)) as [[? Eb] | [? Eb]]; rewrite Eb in Hx;
    destruct (Qabs_spec (b64 y - y)) as [[? Ec] | [? Ec]]; rewrite Ec in Hy;
    destruct (Qabs_spec (b64 x - y)) as [[? Ed] | [? Ed]]; rewrite Ed in Hy; lra.
Qed.

(** ** Floats *)

Lemma is_float_comp (f g : Q) : f == g → is_float f → is_float g.
Proof. intros E (m & e & He & Hm & Ef). exists m, e. rewrite <- E. auto. Qed.

Lemma representable_is_float (f : Q) : representable f → is_float f.
Proof. intros E. apply (is_float_comp (b64 f) f E), b64_is_float. Qed.

Lemma b64_representable (x : Q) : representable (b64 x).
Proof. apply b64_idempotent. Qed.

Lemma representable_0 : representable 0.
Proof. reflexivity. Qed.

Lemma b64_nonneg (x : Q) : 0 <= x → 0 <= b64 x.
Proof. intros H. change 0 with (b64 0) at 1. apply b64_monotone, H. Qed.

Lemma b64_le_float (x f : Q) : representable f → x <= f → b64 x <= f.
Proof.
  intros Hf H. unfold representable in Hf. rewrite <- Hf. apply b64_monotone, H.
Qed.

Lemma b64_ge_float (x f : Q) : representable f → f <= x → f <= b64 x.
Proof.
  intros Hf H. unfold representable in Hf. rewrite <- Hf. apply b64_monotone, H.
Qed.

Lemma fadd_proper (a a' : Q) (Ea : a == a') (b b' : Q) (Eb : b == b') : a ⊕ b = a' ⊕ b'.
Proof. unfold fadd. apply b64_comp. rewrite Ea, Eb. reflexivity. Qed.

Lemma fsub_proper (a a' : Q) (Ea : a == a') (b b' : Q) (Eb : b == b') : a ⊖ b = a' ⊖ b'.
Proof. unfold fsub. apply b64_comp. rewrite Ea, Eb. reflexivity. Qed.

Lemma fmul_proper (a a' : Q) (Ea : a == a') (b b' : Q) (Eb : b == b') : a ⊗ b = a' ⊗ b'.
Proof. unfold fmul. apply b64_comp. rewrite Ea, Eb. reflexivity. Qed.

Lemma fdiv_proper (a a' : Q) (Ea : a == a') (b b' : Q) (Eb : b == b') : a ⊘ b = a' ⊘ b'.
Proof. unfold fdiv. apply b64_comp. rewrite Ea, Eb. reflexivity. Qed.

Lemma fsub_monotone (a a' b b' : Q) : a <= a' → b' <= b → a ⊖ b <= a' ⊖ b'.
Proof. intros Ha Hb. unfold fsub. apply b64_monotone. lra. Qed.

Lemma fadd_0_r (a : Q) : representable a → a ⊕ 0 == a.
Proof.
  intros Ha. unfold fadd. rewrite (b64_comp (a + 0) a) by ring. exact Ha.
Qed.

Lemma fmul_0_l (a b : Q) : a == 0 → a ⊗ b == 0.
Proof. intros E. unfold fmul. rewrite (b64_comp (a * b) 0) by (rewrite E; ring). reflexivity. Qed.

Lemma fdiv_0_l (a b : Q) : a == 0 → a ⊘ b == 0.
Proof.
  intros E. unfold fdiv. rewrite (b64_comp (a / b) 0); [reflexivity|].
  rewrite E. unfold Qdiv. ring.
Qed.
(** ** Comparisons *)

Lemma Qlt_bool_iff (a b : Q) : Qlt_bool a b = true ↔ a < b.
Proof.
  unfold Qlt_bool. rewrite negb_true_iff.
  destruct (Qle_bool b a) eqn:E.
  - apply Qle_bool_iff in E. split; [discriminate | intros H; lra].
  - split; [intros _ | reflexivity].
    apply Qnot_le_lt. intros H. apply Qle_bool_iff in H. congruence.
Qed.

Lemma Qlt_bool_false (a b : Q) : Qlt_bool a b = false ↔ b <= a.
Proof.
  unfold Qlt_bool. rewrite negb_false_iff. apply Qle_bool_iff.
Qed.

Lemma Qeq_bool_false (a b : Q) : Qeq_bool a b = false ↔ ¬ a == b.
Proof.
  split.
  - intros E H. apply Qeq_bool_iff in H. congruence.
  - intros H. destruct (Qeq_bool a b) eqn:E; [|reflexivity].
    apply Qeq_bool_iff in E. contradiction.
Qed.

Lemma sqrt2_pos : 0 < sqrt2.
Proof. reflexivity. Qed.

Lemma py_min_cases (a b : Q) : py_min a b = a ∨ py_min a b = b.
Proof. unfold py_min. destruct (Qlt_bool b a); auto. Qed.

(** ** The outcome monad *)

Lemma bind_Done {A B} (m : outcome A) (f : A → outcome B) (b : B) :
  m ≫= f = Done b → ∃ a, m = Done a ∧ f a = Done b.
Proof. destruct m as [a| |]; simpl; intros H; [eauto | discriminate..]. Qed.

Lemma bind_of_Done {A B : Type} (a : A) (f : A → outcome B) : Done a ≫= f = f a.
Proof. reflexivity. Qed.


(** ** The cell constructor *)

Lemma cell_init_d x y h polygon_geom :
  Cell.d (Cell.init x y h polygon_geom) = Polygon.distanceTo polygon_geom (Point.make x y).
Proof. reflexivity. Qed.

(** C6, as the code has it: a cell built with half-size [h >= 0] from a
    float distance [d] has as upper bound the float sum of [d] and the
    float product [h * sqrt 2]; the bound is never below [d], and it is [d]
    when [h] is zero. *)
Theorem cell_upper_bound (polygon_geom : Polygon.t) (x y h : Q) :
  0 <= h →
  representable (Polygon.distanceTo polygon_geom (Point.make x y)) →
  let c := Cell.init x y h polygon_geom in
  Cell.max c = Cell.d c ⊕ h ⊗ sqrt2 ∧
  Cell.d c <= Cell.max c ∧
  (h == 0 → Cell.max c == Cell.d c).
Proof.
  intros Hh Hd c. pose proof sqrt2_pos as Hs.
  split; [reflexivity|].
  change (Cell.max c) with (Cell.d c ⊕ h ⊗ sqrt2).
  change (Cell.d c) with (Polygon.distanceTo polygon_geom (Point.make x y)).
  set (d := Polygon.distanceTo polygon_geom (Point.make x y)) in *.
  split.
  - assert (Hp : 0 <= h ⊗ sqrt2).
    { apply b64_nonneg, Qmult_le_0_compat; lra. }
    apply b64_ge_float; [exact Hd | lra].
  - intros E. rewrite (fadd_proper d d (Qeq_refl d) _ 0 (fmul_0_l h sqrt2 E)).
    apply fadd_0_r, Hd.
Qed.

Lemma cell_upper_bound_witness :
  0 <= 5 ∧
  representable (Polygon.distanceTo square (Point.make 5 5)) ∧
  let c := Cell.init 5 5 5 square in
  Cell.max c = Cell.d c ⊕ 5 ⊗ sqrt2 ∧
  Cell.d c <= Cell.max c ∧
  (5 == 0 → Cell.max c == Cell.d c).
Proof.
  assert (H : 0 <= 5) by (unfold Qle; simpl; lia).
  assert (H' : representable (Polygon.distanceTo square (Point.make 5 5)))
    by (vm_compute; reflexivity).
  split; [exact H|]. split; [exact H' | exact (cell_upper_bound square 5 5 5 H H')].
Defined.

(** The claim of C6 fails on the code: the cell of half-size [1e-17] at the
    point (1, 5) of the square has [d = 1.0], and the float sum
    [1.0 + 1e-17 * sqrt 2] is [1.0]: the bound equals [d] with [h] other
    than zero, and is not [d + h * sqrt 2]. *)
Lemma rounded_bound_equals_distance :
  0 <= tiny ∧ ¬ tiny == 0 ∧
  Cell.max (Cell.init 1 5 tiny square) == Cell.d (Cell.init 1 5 tiny square) ∧
  ¬ Cell.max (Cell.init 1 5 tiny square)
    == Cell.d (Cell.init 1 5 tiny square) + tiny * sqrt2.
Proof.
  split; [vm_compute; discriminate|]. split; [vm_compute; discriminate|].
  split; [vm_compute; reflexivity | vm_compute; discriminate].
Qed.

(** ** One iteration of the main loop *)

Lemma iteration_best (clock : nat → Q) (polygon_geom : Polygon.t) (tolerance : Q)
    (best_cell : Cell.t) (s : Env.t) (best' : Cell.t) (s' : Env.t) :
  iteration clock polygon_geom tolerance best_cell s = Done (best', s') →
  ∃ cell s1, get s = Done (cell, s1) ∧ best' = improve best_cell cell.
Proof.
  unfold iteration. intros H.
  apply bind_Done in H as ([cell s1] & Hget & H). exists cell, s1.
  split; [exact Hget|].
  destruct (prune tolerance (improve best_cell cell) cell).
  - congruence.
  - apply bind_Done in H as (s2 & _ & H). congruence.
Qed.

Lemma improve_cases (best_cell cell : Cell.t) :
  (improve best_cell cell = best_cell ∧ Cell.d cell <= Cell.d best_cell) ∨
  (improve best_cell cell = cell ∧ Cell.d best_cell < Cell.d cell).
Proof.
  unfold improve. destruct (Qlt_bool (Cell.d best_cell) (Cell.d cell)) eqn:E.
  - right. split; [reflexivity | apply Qlt_bool_iff, E].
  - left. split; [reflexivity | apply Qlt_bool_false, E].
Qed.

(** C7: an iteration never lowers [best_cell.d], and it replaces the best
    cell only by the cell it popped, and only when that cell's [d] is
    strictly greater. *)
Theorem best_distance_never_decreases (clock : nat → Q) (polygon_geom : Polygon.t)
    (tolerance : Q) (best_cell : Cell.t) (s : Env.t) (best' : Cell.t) (s' : Env.t) :
  iteration clock polygon_geom tolerance best_cell s = Done (best', s') →
  Cell.d best_cell <= Cell.d best' ∧
  (best' = best_cell ∨
   ∃ cell s1, get s = Done (cell, s1) ∧ best' = cell ∧ Cell.d best_cell < Cell.d cell).
Proof.
  intros H. apply iteration_best in H as (cell & s1 & Hget & ->).
  destruct (improve_cases best_cell cell) as [[-> Hle] | [-> Hlt]].
  - split; [apply Qle_refl | left; reflexivity].
  - split; [lra|]. right. exists cell, s1. auto.
Qed.

Lemma best_distance_never_decreases_witness :
  iteration steady square 8 (Cell.init 1 1 0 square) square_seeded
  = Done (square_cell, square_popped) ∧
  (Cell.d (Cell.init 1 1 0 square) <= Cell.d square_cell ∧
   (square_cell = Cell.init 1 1 0 square ∨
    ∃ cell s1, get square_seeded = Done (cell, s1) ∧ square_cell = cell ∧
               Cell.d (Cell.init 1 1 0 square) < Cell.d cell)).
Proof.
  assert (H : iteration steady square 8 (Cell.init 1 1 0 square) square_seeded
              = Done (square_cell, square_popped)) by reflexivity.
  split; [exact H|].
  exact (best_distance_never_decreases steady square 8 (Cell.init 1 1 0 square)
           square_seeded square_cell square_popped H).
Defined.

(** Over the whole loop the distance of the best cell only grows. *)
Lemma search_best_monotone (clock : nat → Q) (polygon_geom : Polygon.t) (tolerance : Q)
    (fuel : nat) (best_cell : Cell.t) (s : Env.t) (best' : Cell.t) (s' : Env.t) :
  search clock polygon_geom tolerance fuel best_cell s = Done (best', s') →
  Cell.d best_cell <= Cell.d best'.
Proof.
  revert best_cell s. induction fuel as [|fuel IH]; intros best_cell s H.
  - simpl in H. destruct (Env.cell_queue s); [|discriminate].
    injection H as <- _. apply Qle_refl.
  - simpl in H. destruct (Env.cell_queue s).
    + injection H as <- _. apply Qle_refl.
    + apply bind_Done in H as ([b1 s1] & Hit & H).
      apply iteration_best in Hit as (cell & s2 & _ & ->).
      apply IH in H.
      destruct (improve_cases best_cell cell) as [[E _] | [E Hlt]]; rewrite E in H; lra.
Qed.

(** ** The entry of [execute] *)

Lemma execute_degenerate (clock : nat → Q) (tolerance_value : option Q)
    (polygon_geom : Polygon.t) (rest : list Polygon.t) (fuel : nat) :
  degenerate polygon_geom (tolerance_of tolerance_value) = true →
  execute clock tolerance_value (polygon_geom :: rest) fuel =
    Done ({| Output.shape := Polygon.centroid polygon_geom;
             Output.spatial_reference := Polygon.spatialReference polygon_geom |},
          Env.start).
Proof.
  intros E. unfold execute, first_feature, locate. simpl. rewrite E. reflexivity.
Qed.

Lemma degenerate_true (polygon_geom : Polygon.t) (tolerance : Q) :
  py_min (width polygon_geom) (height polygon_geom) == 0 ∨
  Polygon.area polygon_geom
    < py_max (width polygon_geom) (height polygon_geom) ⊗ tolerance →
  degenerate polygon_geom tolerance = true.
Proof.
  intros H. unfold degenerate, cell_size, max_dim. apply orb_true_iff.
  destruct H as [H | H].
  - left. apply Qeq_bool_iff, H.
  - right. apply Qlt_bool_iff, H.
Qed.

(** C5: when the bounding box has [min(width, height) == 0], or the area is
    below the float product [max(width, height) * tolerance] of line 86
    (width and height being the float differences of lines 80-81), the
    result is the centroid of the polygon; nothing was pushed, no clock was
    read and the loop did not run, whatever the fuel. *)
Theorem degenerate_returns_centroid (clock : nat → Q) (tolerance_value : option Q)
    (polygon_geom : Polygon.t) (rest : list Polygon.t) (fuel : nat) :
  py_min (width polygon_geom) (height polygon_geom) == 0 ∨
  Polygon.area polygon_geom
    < py_max (width polygon_geom) (height polygon_geom) ⊗ tolerance_of tolerance_value →
  execute clock tolerance_value (polygon_geom :: rest) fuel =
    Done ({| Output.shape := Polygon.centroid polygon_geom;
             Output.spatial_reference := Polygon.spatialReference polygon_geom |},
          Env.start).
Proof.
  intros H. apply execute_degenerate, degenerate_true, H.
Qed.

Lemma degenerate_returns_centroid_witness :
  (py_min (width strip) (height strip) == 0 ∨
   Polygon.area strip
     < py_max (width strip) (height strip) ⊗ tolerance_of (Some (1 # 10))) ∧
  execute stalled (Some (1 # 10)) [strip; square] 0 =
    Done ({| Output.shape := Polygon.centroid strip;
             Output.spatial_reference := Polygon.spatialReference strip |},
          Env.start).
Proof.
  assert (H : py_min (width strip) (height strip) == 0 ∨
              Polygon.area strip
                < py_max (width strip) (height strip) ⊗ tolerance_of (Some (1 # 10)))
    by (right; vm_compute; reflexivity).
  split; [exact H|].
  exact (degenerate_returns_centroid stalled (Some (1 # 10)) strip [square] 0 H).
Defined.

(** The product of line 86 is the rounded one: for the strip at the default
    tolerance the area is below the exact product of [max(width, height)]
    and the tolerance, but not below their float product, and the search
    runs. *)
Lemma rounded_product_decides :
  Polygon.area strip < py_max (width strip) (height strip) * tolerance_of None ∧
  ¬ Polygon.area strip < py_max (width strip) (height strip) ⊗ tolerance_of None ∧
  degenerate strip (tolerance_of None) = false.
Proof.
  split; [vm_compute; reflexivity|]. split; [vm_compute; discriminate | vm_compute; reflexivity].
Qed.

(** C9: with two or more features in the input, the run is the run on the
    first feature alone. *)
Theorem only_first_feature_is_used (clock : nat → Q) (tolerance_value : option Q)
    (first second : Polygon.t) (others : list Polygon.t) (fuel : nat) :
  execute clock tolerance_value (first :: second :: others) fuel
  = execute clock tolerance_value [first] fuel.
Proof. reflexivity. Qed.

(** C10: an absent tolerance and a tolerance equal to zero both run as
    tolerance 0.001; a negative tolerance is the tolerance of the run. *)
Theorem falsy_tolerance_is_default (clock : nat → Q) (input_features : list Polygon.t)
    (fuel : nat) :
  tolerance_of None = default_tolerance ∧
  execute clock None input_features fuel
  = execute clock (Some (default_tolerance)) input_features fuel ∧
  (∀ zero : Q, zero == 0 →
     tolerance_of (Some zero) = default_tolerance ∧
     execute clock (Some zero) input_features fuel
     = execute clock (Some (default_tolerance)) input_features fuel) ∧
  (∀ t : Q, t < 0 →
     tolerance_of (Some t) = t ∧
     execute clock (Some t) input_features fuel
     = (polygon_geom ← first_feature input_features;
        '(pole_pt, s) ← locate clock polygon_geom t fuel;
        Done ({| Output.shape := pole_pt;
                 Output.spatial_reference := Polygon.spatialReference polygon_geom |}, s))).
Proof.
  split; [reflexivity|]. split; [reflexivity|]. split.
  - intros zero Hz.
    assert (E : tolerance_of (Some zero) = default_tolerance).
    { unfold tolerance_of. apply Qeq_bool_iff in Hz. rewrite Hz. reflexivity. }
    split; [exact E|]. unfold execute. rewrite E. reflexivity.
  - intros t Ht.
    assert (E : tolerance_of (Some t) = t).
    { unfold tolerance_of. destruct (Qeq_bool t 0) eqn:E0; [|reflexivity].
      apply Qeq_bool_iff in E0. lra. }
    split; [exact E|]. unfold execute. rewrite E. reflexivity.
Qed.

Lemma falsy_tolerance_is_default_witness :
  (0 # 7 == 0 →
   tolerance_of (Some (0 # 7)) = default_tolerance ∧
   execute steady (Some (0 # 7)) [square] 200
   = execute steady (Some (default_tolerance)) [square] 200) ∧
  (- (1) < 0 →
   tolerance_of (Some (- (1))) = - (1)).
Proof.
  pose proof (falsy_tolerance_is_default steady [square] 200) as (_ & _ & Hzero & Hneg).
  split.
  - exact (Hzero (0 # 7)).
  - intros H. exact (proj1 (Hneg (- (1)) H)).
Defined.

(** C4, as the code has it: a tolerance [<= 0] is not rejected.  There is no
    check of the tolerance: with no feature the run stops on the unbound
    [polygon_geom]; otherwise it goes on with tolerance 0.001 in place of
    zero, or with the negative tolerance itself, and a polygon whose
    bounding box has collapsed still yields its centroid. *)
Theorem nonpositive_tolerance_is_not_rejected (clock : nat → Q) (t : Q)
    (input_features : list Polygon.t) (fuel : nat) :
  t <= 0 →
  (input_features = [] →
   execute clock (Some t) input_features fuel = Raised UnboundLocalError) ∧
  (∀ polygon_geom rest, input_features = polygon_geom :: rest →
     let tolerance := if Qeq_bool t 0 then default_tolerance else t in
     execute clock (Some t) input_features fuel
     = ('(pole_pt, s) ← locate clock polygon_geom tolerance fuel;
        Done ({| Output.shape := pole_pt;
                 Output.spatial_reference := Polygon.spatialReference polygon_geom |}, s)) ∧
     (py_min (width polygon_geom) (height polygon_geom) == 0 →
      execute clock (Some t) input_features fuel
      = Done ({| Output.shape := Polygon.centroid polygon_geom;
                 Output.spatial_reference := Polygon.spatialReference polygon_geom |},
              Env.start))).
Proof.
  intros _. split.
  - intros ->. reflexivity.
  - intros polygon_geom rest -> tolerance. split; [reflexivity|].
    intros H. apply execute_degenerate, degenerate_true. left. exact H.
Qed.

Lemma nonpositive_tolerance_is_not_rejected_witness :
  - (1) <= 0 ∧
  execute steady (Some (- (1))) [sliver] 0
  = Done ({| Output.shape := Polygon.centroid sliver;
             Output.spatial_reference := Polygon.spatialReference sliver |},
          Env.start).
Proof.
  assert (H : - (1) <= 0) by (unfold Qle; simpl; lia).
  split; [exact H|].
  pose proof (nonpositive_tolerance_is_not_rejected steady (- (1)) [sliver] 0 H)
    as [_ Hrun].
  destruct (Hrun sliver [] eq_refl) as [_ Hcentroid].
  apply Hcentroid. reflexivity.
Defined.

(** The claim of C4 fails on the code: tolerance zero on the square runs the
    whole search and returns the centre, and tolerance -1 on the collapsed
    polygon returns its centroid. *)
Lemma nonpositive_tolerance_runs :
  0 <= 0 ∧
  execute steady (Some 0) [square] 200
  = Done ({| Output.shape := Point.make 5 5; Output.spatial_reference := 3857 |},
          {| Env.cell_queue := []; Env.clock_reads := 181; Env.pops := 181 |}) ∧
  - (1) <= 0 ∧
  execute steady (Some (- (1))) [sliver] 0
  = Done ({| Output.shape := Point.make 3 4; Output.spatial_reference := 3857 |},
          Env.start).
Proof.
  split; [unfold Qle; simpl; lia|]. split; [vm_compute; reflexivity|].
  split; [unfold Qle; simpl; lia | reflexivity].
Qed.

(** ** Related outcomes *)

Lemma outcome_rel_bind {A B A' B' : Type} (P : A → B → Prop) (P' : A' → B' → Prop)
    (m1 : outcome A) (m2 : outcome B) (f1 : A → outcome A') (f2 : B → outcome B') :
  outcome_rel P m1 m2 →
  (∀ a b, P a b → outcome_rel P' (f1 a) (f2 b)) →
  outcome_rel P' (m1 ≫= f1) (m2 ≫= f2).
Proof.
  destruct m1, m2; simpl; intros H Hf; try contradiction; auto.
Qed.

Lemma outcome_rel_of_eq {A B : Type} (P : A → B → Prop)
    (o : outcome bool) (f1 : bool → outcome A) (f2 : bool → outcome B) :
  (∀ b, outcome_rel P (f1 b) (f2 b)) →
  outcome_rel P (o ≫= f1) (o ≫= f2).
Proof. intros H. destruct o; simpl; auto. Qed.

(** ** [heapq] on two heaps whose items compare alike *)

Section heapq_rel.
Context {A B : Type} (ltA : A → A → outcome bool) (ltB : B → B → outcome bool).
Context (R : A → B → Prop).
Hypothesis lt_rel : ∀ a a' b b', R a b → R a' b' → ltA a a' = ltB b b'.

Lemma lookup_rel (h1 : list A) (h2 : list B) (i : nat) :
  Forall2 R h1 h2 → option_Forall2 R (h1 !! i) (h2 !! i).
Proof. intros H. revert i. apply Forall2_lookup. exact H. Qed.

Lemma siftdown_loop_rel (fuel : nat) (h1 : list A) (h2 : list B) (x : A) (y : B)
    (startpos pos : nat) :
  Forall2 R h1 h2 → R x y →
  outcome_rel (Forall2 R) (siftdown_loop ltA fuel h1 x startpos pos)
                          (siftdown_loop ltB fuel h2 y startpos pos).
Proof.
  revert h1 h2 pos. induction fuel as [|fuel IH]; intros h1 h2 pos Hh Hxy;
    cbn [siftdown_loop].
  - apply Forall2_insert; assumption.
  - destruct (startpos <? pos)%nat; [|apply Forall2_insert; assumption].
    destruct (lookup_rel h1 h2 ((pos - 1) / 2) Hh) as [p q Hpq|]; [|exact eq_refl].
    rewrite (lt_rel x p y q Hxy Hpq).
    apply outcome_rel_of_eq. intros [|].
    + apply IH; [apply Forall2_insert|]; assumption.
    + simpl. apply Forall2_insert; assumption.
Qed.

Lemma siftdown_rel (h1 : list A) (h2 : list B) (startpos pos : nat) :
  Forall2 R h1 h2 →
  outcome_rel (Forall2 R) (siftdown ltA h1 startpos pos) (siftdown ltB h2 startpos pos).
Proof.
  intros Hh. unfold siftdown.
  destruct (lookup_rel h1 h2 pos Hh) as [x y Hxy|]; [|exact eq_refl].
  apply siftdown_loop_rel; assumption.
Qed.

Lemma heappush_rel (h1 : list A) (h2 : list B) (x : A) (y : B) :
  Forall2 R h1 h2 → R x y →
  outcome_rel (Forall2 R) (heappush ltA h1 x) (heappush ltB h2 y).
Proof.
  intros Hh Hxy. unfold heappush. rewrite (Forall2_length _ _ _ Hh).
  apply siftdown_rel. apply Forall2_app; [assumption|]. constructor; [assumption|constructor].
Qed.

Lemma siftup_loop_rel (fuel : nat) (h1 : list A) (h2 : list B) (pos : nat) :
  Forall2 R h1 h2 →
  outcome_rel (λ r1 r2, Forall2 R r1.1 r2.1 ∧ r1.2 = r2.2)
    (siftup_loop ltA fuel h1 pos) (siftup_loop ltB fuel h2 pos).
Proof.
  revert h1 h2 pos. induction fuel as [|fuel IH]; intros h1 h2 pos Hh;
    cbn [siftup_loop].
  - split; [assumption|reflexivity].
  - rewrite <- (Forall2_length _ _ _ Hh).
    destruct (2 * pos + 1 <? length h1)%nat; [|split; [assumption|reflexivity]].
    apply outcome_rel_bind with (P := eq).
    + destruct (2 * pos + 1 + 1 <? length h1)%nat; [|exact eq_refl].
      destruct (lookup_rel h1 h2 (2 * pos + 1) Hh) as [l l' Hl|]; [|exact eq_refl].
      destruct (lookup_rel h1 h2 (2 * pos + 1 + 1) Hh) as [r r' Hr|]; [|exact eq_refl].
      rewrite (lt_rel l r l' r' Hl Hr).
      apply outcome_rel_of_eq. intros b. exact eq_refl.
    + intros c ? <-.
      destruct (lookup_rel h1 h2 c Hh) as [u v Huv|]; [|exact eq_refl].
      apply IH. apply Forall2_insert; assumption.
Qed.

Lemma siftup_rel (h1 : list A) (h2 : list B) (pos : nat) :
  Forall2 R h1 h2 →
  outcome_rel (Forall2 R) (siftup ltA h1 pos) (siftup ltB h2 pos).
Proof.
  intros Hh. unfold siftup.
  destruct (lookup_rel h1 h2 pos Hh) as [x y Hxy|]; [|exact eq_refl].
  rewrite <- (Forall2_length _ _ _ Hh).
  eapply outcome_rel_bind; [apply siftup_loop_rel; assumption|].
  intros [r1 p1] [r2 p2] [Hr Hp]. simpl in Hr, Hp. subst p2.
  apply siftdown_rel. apply Forall2_insert; assumption.
Qed.

Lemma removelast_rel (h1 : list A) (h2 : list B) :
  Forall2 R h1 h2 → Forall2 R (removelast h1) (removelast h2).
Proof.
  induction 1 as [|x y l k Hxy Hlk IH]; simpl; [constructor|].
  destruct Hlk; [constructor|]. constructor; assumption.
Qed.

Lemma heappop_rel (h1 : list A) (h2 : list B) :
  Forall2 R h1 h2 →
  outcome_rel (λ r1 r2, R r1.1 r2.1 ∧ Forall2 R r1.2 r2.2)
    (heappop ltA h1) (heappop ltB h2).
Proof.
  intros Hh. unfold heappop.
  destruct (Forall2_last _ _ _ Hh) as [x y Hxy|]; [|exact eq_refl].
  destruct (removelast_rel h1 h2 Hh) as [|u v l k Huv Hlk].
  - split; [assumption|constructor].
  - eapply outcome_rel_bind.
    + apply siftup_rel. constructor; eassumption.
    + intros r1 r2 Hr. split; assumption.
Qed.
End heapq_rel.

(** ** Lists as multisets of items *)

Lemma two_lookups_Permutation {A : Type} (l : list A) (i j : nat) (a b : A) :
  l !! i = Some a → l !! j = Some b → i ≠ j → ∃ k, l ≡ₚ a :: b :: k.
Proof.
  intros Hi Hj Hne. exists (delete (if decide (j < i)%nat then j else pred j) (delete i l)).
  rewrite (delete_Permutation l i a Hi) at 1. apply Permutation_skip.
  apply delete_Permutation.
  destruct (decide (j < i)%nat) as [Hlt|Hge].
  - rewrite list_lookup_delete_lt by exact Hlt. exact Hj.
  - rewrite list_lookup_delete_ge by lia. replace (S (pred j)) with j by lia. exact Hj.
Qed.

Lemma pairwise_Permutation {A : Type} (P : A → A → Prop) (l l' : list A) :
  l ≡ₚ l' → pairwise P l → pairwise P l'.
Proof. intros Hl H x y k Hk. apply (H x y k). rewrite Hl. exact Hk. Qed.

Lemma pairwise_tail {A : Type} (P : A → A → Prop) (a : A) (l : list A) :
  pairwise P (a :: l) → pairwise P l.
Proof.
  intros H x y k Hk. apply (H x y (a :: k)). rewrite Hk.
  exact (Permutation_middle [x; y] k a).
Qed.

Lemma pairwise_lookup {A : Type} (P : A → A → Prop) (l : list A) (i j : nat) (a b : A) :
  pairwise P l → l !! i = Some a → l !! j = Some b → i ≠ j → P a b.
Proof.
  intros H Hi Hj Hne. destruct (two_lookups_Permutation l i j a b Hi Hj Hne) as [k Hk].
  exact (H a b k Hk).
Qed.

Lemma pairwise_cons {A : Type} (P : A → A → Prop) (a : A) (l : list A) :
  Forall (λ b, P a b ∧ P b a) l → pairwise P l → pairwise P (a :: l).
Proof.
  intros Ha Hl x y k Hk.
  apply Permutation_cons_inv_l in Hk as (k1 & k2 & E & Hk).
  rewrite Forall_forall in Ha.
  destruct k1 as [|x' [|y' k1]]; simpl in E.
  - injection E as <- <-. apply Ha. rewrite Hk. simpl. left.
  - injection E as <- <-. apply Ha. rewrite Hk. simpl. left.
  - injection E as <- <- ->. apply (Hl x y (k1 ++ k2)). exact Hk.
Qed.

Lemma pairwise_nil {A : Type} (P : A → A → Prop) : pairwise P [].
Proof. intros x y k Hk. apply Permutation_nil_cons in Hk. contradiction. Qed.

Lemma last_removelast {A : Type} (l : list A) (e : A) :
  last l = Some e → l = removelast l ++ [e].
Proof.
  induction l as [|a l IH]; [discriminate|].
  destruct l as [|b l].
  - simpl. congruence.
  - intros H. change (last (a :: b :: l)) with (last (b :: l)) in H.
    change (removelast (a :: b :: l)) with (a :: removelast (b :: l)).
    simpl app. f_equal. apply IH, H.
Qed.

(** ** [heapq] keeps the items and, where items compare, returns *)

Section heapq_perm.
Context {A : Type} (lt : A → A → outcome bool).

Lemma insert_swap_Permutation (l : list A) (i j : nat) (x p : A) :
  l !! j = Some p → i ≠ j → (i < length l)%nat →
  <[j := x]> (<[i := p]> l) ≡ₚ <[i := x]> l.
Proof.
  intros Hj Hne Hi.
  rewrite <- (list_insert_insert_eq l i p x).
  apply Permutation_insert_swap.
  - apply list_lookup_insert_eq, Hi.
  - rewrite list_lookup_insert_ne by exact Hne. exact Hj.
Qed.

Lemma siftdown_loop_Permutation (fuel : nat) (heap : list A) (x : A)
    (startpos pos : nat) (heap' : list A) :
  (pos < length heap)%nat →
  siftdown_loop lt fuel heap x startpos pos = Done heap' →
  heap' ≡ₚ <[pos := x]> heap.
Proof.
  revert heap pos. induction fuel as [|fuel IH]; intros heap pos Hpos H;
    cbn [siftdown_loop] in H.
  - injection H as <-. reflexivity.
  - destruct (Nat.ltb_spec startpos pos) as [Hlt|Hge]; [|injection H as <-; reflexivity].
    destruct (heap !! ((pos - 1) / 2)%nat) as [parent|] eqn:Hp; [|discriminate].
    apply bind_Done in H as ([|] & _ & H); [|injection H as <-; reflexivity].
    assert (Hpp : ((pos - 1) / 2 < pos)%nat).
    { apply (Nat.le_lt_trans _ (pos - 1)); [apply Nat.Div0.div_le_upper_bound; lia | lia]. }
    apply IH in H; [|rewrite length_insert; lia].
    rewrite H. apply insert_swap_Permutation; [exact Hp | lia | exact Hpos].
Qed.

Lemma siftdown_loop_returns (fuel : nat) (heap : list A) (x : A) (startpos pos : nat) :
  (pos < length heap)%nat →
  pairwise (comparable lt) (<[pos := x]> heap) →
  ∃ heap', siftdown_loop lt fuel heap x startpos pos = Done heap'.
Proof.
  revert heap pos. induction fuel as [|fuel IH]; intros heap pos Hpos Hok;
    cbn [siftdown_loop].
  - eauto.
  - destruct (Nat.ltb_spec startpos pos) as [Hlt|Hge]; [|eauto].
    assert (Hpp : ((pos - 1) / 2 < pos)%nat).
    { apply (Nat.le_lt_trans _ (pos - 1)); [apply Nat.Div0.div_le_upper_bound; lia | lia]. }
    destruct (lookup_lt_is_Some_2 heap ((pos - 1) / 2)) as [parent Hp]; [lia|].
    rewrite Hp.
    destruct (pairwise_lookup _ _ pos ((pos - 1) / 2) x parent Hok) as [r Hr].
    { apply list_lookup_insert_eq, Hpos. }
    { rewrite list_lookup_insert_ne by lia. exact Hp. }
    { lia. }
    rewrite Hr. unfold mbind, outcome_bind. destruct r; [|eauto].
    apply IH; [rewrite length_insert; lia|].
    eapply pairwise_Permutation; [|exact Hok].
    symmetry. apply insert_swap_Permutation; [exact Hp | lia | exact Hpos].
Qed.

Lemma heappush_Permutation (heap : list A) (item : A) (heap' : list A) :
  heappush lt heap item = Done heap' → heap' ≡ₚ item :: heap.
Proof.
  unfold heappush, siftdown. rewrite list_lookup_middle by reflexivity.
  intros H. apply siftdown_loop_Permutation in H; [|rewrite length_app; simpl; lia].
  rewrite H. rewrite list_insert_id by (apply list_lookup_middle; reflexivity).
  symmetry. apply Permutation_cons_append.
Qed.

Lemma heappush_returns (heap : list A) (item : A) :
  pairwise (comparable lt) (item :: heap) → ∃ heap', heappush lt heap item = Done heap'.
Proof.
  intros Hok. unfold heappush, siftdown. rewrite list_lookup_middle by reflexivity.
  apply siftdown_loop_returns; [rewrite length_app; simpl; lia|].
  rewrite list_insert_id by (apply list_lookup_middle; reflexivity).
  eapply pairwise_Permutation; [|exact Hok]. apply Permutation_cons_append.
Qed.

Lemma siftup_child (heap : list A) (pos c : nat) :
  (if (2 * pos + 1 + 1 <? length heap)%nat
   then match heap !! (2 * pos + 1)%nat, heap !! (2 * pos + 1 + 1)%nat with
        | Some l, Some r =>
            b ← lt l r; Done (if b : bool then (2 * pos + 1)%nat else (2 * pos + 1 + 1)%nat)
        | _, _ => Raised IndexError
        end
   else Done (2 * pos + 1)%nat) = Done c →
  (2 * pos + 1 < length heap)%nat →
  (pos < c < length heap)%nat.
Proof.
  intros H Hlen. destruct (Nat.ltb_spec (2 * pos + 1 + 1) (length heap)) as [Hr|Hr].
  - destruct (heap !! (2 * pos + 1)%nat); [|discriminate].
    destruct (heap !! (2 * pos + 1 + 1)%nat); [|discriminate].
    apply bind_Done in H as ([|] & _ & H); injection H as <-; lia.
  - injection H as <-. lia.
Qed.

Lemma siftup_loop_Permutation (fuel : nat) (heap : list A) (pos : nat)
    (heap' : list A) (pos' : nat) :
  (pos < length heap)%nat →
  siftup_loop lt fuel heap pos = Done (heap', pos') →
  (pos' < length heap')%nat ∧ ∀ x, <[pos' := x]> heap' ≡ₚ <[pos := x]> heap.
Proof.
  revert heap pos. induction fuel as [|fuel IH]; intros heap pos Hpos H;
    cbn [siftup_loop] in H.
  - injection H as <- <-. split; [exact Hpos | reflexivity].
  - destruct (Nat.ltb_spec (2 * pos + 1) (length heap)) as [Hc|Hc];
      [|injection H as <- <-; split; [exact Hpos | reflexivity]].
    apply bind_Done in H as (c & Hchild & H).
    apply siftup_child in Hchild as [Hpc Hcl]; [|exact Hc].
    destruct (heap !! c) as [child|] eqn:Hlook; [|discriminate].
    apply IH in H as [Hlen Hperm]; [|rewrite length_insert; exact Hcl].
    split; [exact Hlen|]. intros x. rewrite Hperm.
    apply insert_swap_Permutation; [exact Hlook | lia | exact Hpos].
Qed.

Lemma siftup_loop_returns (fuel : nat) (heap : list A) (pos : nat) (x : A) :
  (pos < length heap)%nat →
  pairwise (comparable lt) (<[pos := x]> heap) →
  ∃ r, siftup_loop lt fuel heap pos = Done r.
Proof.
  revert heap pos. induction fuel as [|fuel IH]; intros heap pos Hpos Hok;
    cbn [siftup_loop].
  - eauto.
  - destruct (Nat.ltb_spec (2 * pos + 1) (length heap)) as [Hc|Hc]; [|eauto].
    assert (Hchild : ∃ c,
      (if (2 * pos + 1 + 1 <? length heap)%nat
       then match heap !! (2 * pos + 1)%nat, heap !! (2 * pos + 1 + 1)%nat with
            | Some l, Some r =>
                b ← lt l r;
                Done (if b : bool then (2 * pos + 1)%nat else (2 * pos + 1 + 1)%nat)
            | _, _ => Raised IndexError
            end
       else Done (2 * pos + 1)%nat) = Done c).
    { destruct (Nat.ltb_spec (2 * pos + 1 + 1) (length heap)) as [Hr|Hr]; [|eauto].
      destruct (lookup_lt_is_Some_2 heap (2 * pos + 1)) as [l Hl]; [lia|].
      destruct (lookup_lt_is_Some_2 heap (2 * pos + 1 + 1)) as [r Hr']; [lia|].
      rewrite Hl, Hr'.
      destruct (pairwise_lookup _ _ (2 * pos + 1) (2 * pos + 1 + 1) l r Hok) as [b Hb].
      { rewrite list_lookup_insert_ne by lia. exact Hl. }
      { rewrite list_lookup_insert_ne by lia. exact Hr'. }
      { lia. }
      rewrite Hb. unfold mbind, outcome_bind. eauto. }
    destruct Hchild as [c Hchild]. rewrite Hchild. unfold mbind at 1, outcome_bind at 1.
    apply siftup_child in Hchild as [Hpc Hcl]; [|exact Hc].
    destruct (lookup_lt_is_Some_2 heap c Hcl) as [child Hlook]. rewrite Hlook.
    apply (IH _ _); [rewrite length_insert; exact Hcl|].
    eapply pairwise_Permutation; [|exact Hok].
    symmetry. apply insert_swap_Permutation; [exact Hlook | lia | exact Hpos].
Qed.

Lemma siftup_Permutation (heap : list A) (pos : nat) (heap' : list A) :
  siftup lt heap pos = Done heap' → heap' ≡ₚ heap.
Proof.
  unfold siftup. destruct (heap !! pos) as [newitem|] eqn:Hlook; [|discriminate].
  intros H. apply bind_Done in H as ([h1 p1] & Hloop & H).
  apply siftup_loop_Permutation in Hloop as [Hlen Hperm];
    [|eapply lookup_lt_Some; exact Hlook].
  unfold siftdown in H. rewrite list_lookup_insert_eq in H by exact Hlen.
  apply siftdown_loop_Permutation in H; [|rewrite length_insert; exact Hlen].
  rewrite H, list_insert_insert_eq, Hperm. rewrite list_insert_id by exact Hlook.
  reflexivity.
Qed.

Lemma siftup_returns (heap : list A) (pos : nat) :
  (pos < length heap)%nat →
  pairwise (comparable lt) heap →
  ∃ heap', siftup lt heap pos = Done heap'.
Proof.
  intros Hpos Hok. unfold siftup.
  destruct (lookup_lt_is_Some_2 heap pos Hpos) as [newitem Hlook]. rewrite Hlook.
  destruct (siftup_loop_returns (length heap) heap pos newitem Hpos) as [[h1 p1] Hloop].
  { rewrite list_insert_id by exact Hlook. exact Hok. }
  rewrite Hloop. unfold mbind at 1, outcome_bind at 1.
  apply siftup_loop_Permutation in Hloop as [Hlen Hperm]; [|exact Hpos].
  unfold siftdown. rewrite list_lookup_insert_eq by exact Hlen.
  apply siftdown_loop_returns; [rewrite length_insert; exact Hlen|].
  rewrite list_insert_insert_eq.
  eapply pairwise_Permutation; [|exact Hok].
  rewrite Hperm, list_insert_id by exact Hlook. reflexivity.
Qed.

Lemma heappop_Permutation (heap : list A) (item : A) (heap' : list A) :
  heappop lt heap = Done (item, heap') → heap ≡ₚ item :: heap'.
Proof.
  unfold heappop. destruct (last heap) as [lastelt|] eqn:Hlast; [|discriminate].
  rewrite (last_removelast heap lastelt Hlast) at 2.
  destruct (removelast heap) as [|returnitem rest].
  - intros H. injection H as <- <-. reflexivity.
  - intros H. apply bind_Done in H as (h1 & Hup & H). injection H as <- <-.
    apply siftup_Permutation in Hup. rewrite Hup. simpl.
    apply Permutation_skip. symmetry. apply Permutation_cons_append.
Qed.

Lemma heappop_returns (heap : list A) :
  heap ≠ [] →
  pairwise (comparable lt) heap →
  ∃ item heap', heappop lt heap = Done (item, heap').
Proof.
  intros Hne Hok. unfold heappop.
  destruct (last heap) as [lastelt|] eqn:Hlast.
  2:{ apply last_None in Hlast. contradiction. }
  pose proof (last_removelast heap lastelt Hlast) as E.
  destruct (removelast heap) as [|returnitem rest]; [eauto|].
  destruct (siftup_returns (lastelt :: rest) 0) as [h1 Hup].
  { simpl. lia. }
  { apply (pairwise_tail _ returnitem). eapply pairwise_Permutation; [|exact Hok].
    rewrite E. simpl. apply Permutation_skip. symmetry. apply Permutation_cons_append. }
  rewrite Hup. simpl. eauto.
Qed.

(** The fuel given to the two loops by [siftdown] and [siftup] is enough:
    any larger fuel gives the same result. *)
Lemma siftdown_loop_fuel (fuel fuel' : nat) (heap : list A) (x : A) (startpos pos : nat) :
  (pos ≤ fuel)%nat → (pos ≤ fuel')%nat →
  siftdown_loop lt fuel heap x startpos pos = siftdown_loop lt fuel' heap x startpos pos.
Proof.
  revert fuel' heap pos. induction fuel as [|fuel IH]; intros fuel' heap pos H H'.
  - assert (pos = 0%nat) as -> by lia. destruct fuel'; reflexivity.
  - destruct fuel' as [|fuel'].
    + assert (pos = 0%nat) as -> by lia. reflexivity.
    + cbn [siftdown_loop]. destruct (Nat.ltb_spec startpos pos) as [Hlt|Hge]; [|reflexivity].
      assert (Hpp : ((pos - 1) / 2 < pos)%nat).
      { apply (Nat.le_lt_trans _ (pos - 1)); [apply Nat.Div0.div_le_upper_bound; lia | lia]. }
      destruct (heap !! ((pos - 1) / 2)%nat); [|reflexivity].
      destruct (lt x a) as [[|]| |]; try reflexivity.
      unfold mbind, outcome_bind. apply IH; lia.
Qed.

Lemma siftup_loop_fuel (fuel fuel' : nat) (heap : list A) (pos : nat) :
  (length heap - pos ≤ fuel)%nat → (length heap - pos ≤ fuel')%nat →
  siftup_loop lt fuel heap pos = siftup_loop lt fuel' heap pos.
Proof.
  revert fuel' heap pos. induction fuel as [|fuel IH]; intros fuel' heap pos H H'.
  - destruct fuel' as [|fuel']; [reflexivity|]. cbn [siftup_loop].
    destruct (Nat.ltb_spec (2 * pos + 1) (length heap)); [lia | reflexivity].
  - destruct fuel' as [|fuel']; cbn [siftup_loop].
    + destruct (Nat.ltb_spec (2 * pos + 1) (length heap)); [lia | reflexivity].
    + destruct (Nat.ltb_spec (2 * pos + 1) (length heap)) as [Hc|Hc]; [|reflexivity].
      match goal with |- ?m ≫= _ = _ => destruct m as [c| |] eqn:Hchild end;
        try reflexivity.
      apply siftup_child in Hchild as [Hpc Hcl]; [|exact Hc].
      unfold mbind, outcome_bind. destruct (heap !! c); [|reflexivity].
      apply IH; rewrite length_insert; lia.
Qed.
End heapq_perm.

(** ** Runs under two advancing clocks *)

Lemma advancing_eq (clock : nat → Q) (i j : nat) :
  advancing clock → Qeq_bool (clock i) (clock j) = (i =? j)%nat.
Proof.
  intros Hc. destruct (Nat.eqb_spec i j) as [->|Hne].
  - apply Qeq_bool_iff. reflexivity.
  - apply Qeq_bool_false. intros E.
    destruct (Nat.lt_total i j) as [Hlt|[Heq|Hgt]]; [|contradiction|].
    + specialize (Hc i j Hlt). lra.
    + specialize (Hc j i Hgt). lra.
Qed.

Lemma advancing_lt (clock : nat → Q) (i j : nat) :
  advancing clock → Qlt_bool (clock i) (clock j) = (i <? j)%nat.
Proof.
  intros Hc. destruct (Nat.ltb_spec i j) as [Hlt|Hge].
  - apply Qlt_bool_iff. apply Hc, Hlt.
  - apply Qlt_bool_false.
    destruct (Nat.eq_dec i j) as [->|Hne]; [apply Qle_refl|].
    apply Qlt_le_weak, Hc. lia.
Qed.

Section two_clocks.
Variables clock1 clock2 : nat → Q.
Hypothesis advancing1 : advancing clock1.
Hypothesis advancing2 : advancing clock2.
Variable polygon_geom : Polygon.t.
Variable tolerance : Q.

Local Abbreviation same_entry := (same_insertion clock1 clock2).
Local Abbreviation same_env := (same_search clock1 clock2).

Lemma tuple_lt_same (a a' b b' : entry) :
  same_entry a b → same_entry a' b' → tuple_lt a a' = tuple_lt b b'.
Proof.
  intros (k & i & c & -> & ->) (k' & j & c' & -> & ->). unfold tuple_lt.
  destruct (negb (Qeq_bool k k')); [reflexivity|].
  rewrite !advancing_eq, !advancing_lt by assumption. reflexivity.
Qed.

Lemma same_env_eq (s1 s2 : Env.t) :
  same_env s1 s2 → Env.cell_queue s1 = [] → s1 = s2.
Proof.
  destruct s1 as [q1 n1 p1], s2 as [q2 n2 p2]. intros (Hq & Hn & Hp) E.
  simpl in *. subst q1. apply Forall2_nil_inv_l in Hq. congruence.
Qed.

Lemma put_same (c : Cell.t) (s1 s2 : Env.t) :
  same_env s1 s2 → outcome_rel same_env (put clock1 c s1) (put clock2 c s2).
Proof.
  intros (Hq & Hn & Hp). unfold put.
  eapply outcome_rel_bind.
  - apply (heappush_rel tuple_lt tuple_lt same_entry tuple_lt_same); [exact Hq|].
    exists (- Cell.max c), (Env.clock_reads s1), c. rewrite Hn. auto.
  - intros q1 q2 Hq'. repeat split; simpl; congruence || assumption.
Qed.

Lemma put_all_same (cs : list Cell.t) (s1 s2 : Env.t) :
  same_env s1 s2 → outcome_rel same_env (put_all clock1 cs s1) (put_all clock2 cs s2).
Proof.
  revert s1 s2. induction cs as [|c cs IH]; intros s1 s2 Hs; simpl.
  - exact Hs.
  - eapply outcome_rel_bind; [apply put_same, Hs | exact IH].
Qed.

Lemma get_same (s1 s2 : Env.t) :
  same_env s1 s2 →
  outcome_rel (λ r1 r2, r1.1 = r2.1 ∧ same_env r1.2 r2.2) (get s1) (get s2).
Proof.
  intros (Hq & Hn & Hp). unfold get.
  eapply outcome_rel_bind.
  - apply (heappop_rel tuple_lt tuple_lt same_entry tuple_lt_same). exact Hq.
  - intros [e1 q1] [e2 q2] [He Hq']. simpl in He, Hq'.
    destruct He as (k & i & c & -> & ->). simpl.
    repeat split; simpl; congruence || assumption.
Qed.

Lemma iteration_same (best_cell : Cell.t) (s1 s2 : Env.t) :
  same_env s1 s2 →
  outcome_rel (λ r1 r2, r1.1 = r2.1 ∧ same_env r1.2 r2.2)
    (iteration clock1 polygon_geom tolerance best_cell s1)
    (iteration clock2 polygon_geom tolerance best_cell s2).
Proof.
  intros Hs. unfold iteration.
  eapply outcome_rel_bind; [apply get_same, Hs|].
  intros [c1 t1] [c2 t2] [Hc Ht]. simpl in Hc, Ht. subst c2.
  destruct (prune tolerance (improve best_cell c1) c1).
  - split; [reflexivity | exact Ht].
  - eapply outcome_rel_bind; [apply put_all_same, Ht|].
    intros u1 u2 Hu. split; [reflexivity | exact Hu].
Qed.

Lemma same_env_shape (s1 s2 : Env.t) :
  same_env s1 s2 →
  match Env.cell_queue s1, Env.cell_queue s2 with
  | [], [] => s1 = s2
  | _ :: _, _ :: _ => True
  | _, _ => False
  end.
Proof.
  intros Hs. pose proof Hs as (Hq & _).
  destruct (Env.cell_queue s1) eqn:E1, (Env.cell_queue s2) eqn:E2;
    try (apply Forall2_length in Hq; discriminate); [|exact I].
  apply same_env_eq; assumption.
Qed.

Lemma search_same (fuel : nat) (best_cell : Cell.t) (s1 s2 : Env.t) :
  same_env s1 s2 →
  search clock1 polygon_geom tolerance fuel best_cell s1
  = search clock2 polygon_geom tolerance fuel best_cell s2.
Proof.
  revert best_cell s1 s2. induction fuel as [|fuel IH]; intros best_cell s1 s2 Hs;
    pose proof (same_env_shape s1 s2 Hs) as Hshape; simpl;
    destruct (Env.cell_queue s1), (Env.cell_queue s2); try contradiction.
  - subst s2. reflexivity.
  - reflexivity.
  - subst s2. reflexivity.
  - pose proof (iteration_same best_cell s1 s2 Hs) as Hit.
    destruct (iteration clock1 polygon_geom tolerance best_cell s1) as [[b1 t1]| |],
             (iteration clock2 polygon_geom tolerance best_cell s2) as [[b2 t2]| |];
      simpl in Hit; try contradiction; [|subst; reflexivity|reflexivity].
    destruct Hit as [Hb Ht]. simpl in Hb, Ht. subst b2. simpl. apply IH, Ht.
Qed.

Lemma seed_column_same (fuel : nat) (x y : Q) (s1 s2 : Env.t) :
  same_env s1 s2 →
  outcome_rel same_env (seed_column clock1 polygon_geom fuel x y s1)
                       (seed_column clock2 polygon_geom fuel x y s2).
Proof.
  revert y s1 s2. induction fuel as [|fuel IH]; intros y s1 s2 Hs; simpl.
  - destruct (Qlt_bool y (max_y polygon_geom)); [exact I | exact Hs].
  - destruct (Qlt_bool y (max_y polygon_geom)); [|exact Hs].
    eapply outcome_rel_bind; [apply put_same, Hs|]. intros t1 t2 Ht. apply IH, Ht.
Qed.

Lemma seed_grid_same (budget fuel : nat) (x : Q) (s1 s2 : Env.t) :
  same_env s1 s2 →
  outcome_rel same_env (seed_grid clock1 polygon_geom budget fuel x s1)
                       (seed_grid clock2 polygon_geom budget fuel x s2).
Proof.
  revert x s1 s2. induction fuel as [|fuel IH]; intros x s1 s2 Hs; simpl.
  - destruct (Qlt_bool x (max_x polygon_geom)); [exact I | exact Hs].
  - destruct (Qlt_bool x (max_x polygon_geom)); [|exact Hs].
    eapply outcome_rel_bind; [apply seed_column_same, Hs|]. intros t1 t2 Ht. apply IH, Ht.
Qed.

Lemma locate_same (fuel : nat) :
  locate clock1 polygon_geom tolerance fuel = locate clock2 polygon_geom tolerance fuel.
Proof.
  unfold locate. destruct (degenerate polygon_geom tolerance); [reflexivity|].
  assert (Hstart : same_env Env.start Env.start) by (repeat split; constructor).
  pose proof (seed_grid_same fuel fuel (min_x polygon_geom) _ _ Hstart) as Hseed.
  destruct (seed_grid clock1 polygon_geom fuel fuel (min_x polygon_geom) Env.start) as [t1| |],
           (seed_grid clock2 polygon_geom fuel fuel (min_x polygon_geom) Env.start) as [t2| |];
    simpl in Hseed; try contradiction; [|subst; reflexivity|reflexivity].
  simpl. rewrite (search_same fuel (initial_best polygon_geom) t1 t2 Hseed). reflexivity.
Qed.
End two_clocks.

(** ** The frontier under an advancing clock *)

Lemma tuple_lt_distinct_times (a b : entry) :
  ¬ entry_time a == entry_time b → comparable tuple_lt a b.
Proof.
  destruct a as [[ka ta] ca], b as [[kb tb] cb]. unfold entry_time, comparable, tuple_lt.
  simpl. intros Hne. destruct (negb (Qeq_bool ka kb)); [eauto|].
  apply Qeq_bool_false in Hne. rewrite Hne. simpl. eauto.
Qed.

Lemma well_stamped_comparable (clock : nat → Q) (s : Env.t) :
  well_stamped clock s → pairwise (comparable tuple_lt) (Env.cell_queue s).
Proof.
  intros [Hd _] x y k Hk. apply tuple_lt_distinct_times. exact (Hd x y k Hk).
Qed.

Section advancing_clock.
Variable clock : nat → Q.
Hypothesis clock_advances : advancing clock.

Lemma put_returns (c : Cell.t) (s : Env.t) :
  well_stamped clock s →
  ∃ s', put clock c s = Done s' ∧ well_stamped clock s' ∧
        cells s' ≡ₚ c :: cells s ∧ Env.pops s' = Env.pops s.
Proof.
  intros [Hd Hb]. unfold put.
  set (item := (- Cell.max c, clock (Env.clock_reads s), c) : entry).
  assert (Hitem : pairwise (λ a b, ¬ entry_time a == entry_time b)
                    (item :: Env.cell_queue s)).
  { apply pairwise_cons; [|exact Hd].
    eapply Forall_impl; [exact Hb|]. intros e He. unfold entry_time in *. simpl in *.
    split; intros E; lra. }
  destruct (heappush_returns tuple_lt (Env.cell_queue s) item) as [q Hq].
  { intros x y k Hk. apply tuple_lt_distinct_times. exact (Hitem x y k Hk). }
  rewrite Hq. simpl. eexists. split; [reflexivity|].
  apply heappush_Permutation in Hq.
  split; [split|split]; simpl.
  - eapply pairwise_Permutation; [symmetry; exact Hq | exact Hitem].
  - rewrite Hq. constructor.
    + unfold entry_time. simpl. apply clock_advances. lia.
    + eapply Forall_impl; [exact Hb|]. intros e He. simpl in He.
      pose proof (clock_advances (Env.clock_reads s) (S (Env.clock_reads s))
                    (Nat.lt_succ_diag_r _)). lra.
  - unfold cells. simpl. rewrite Hq. reflexivity.
  - reflexivity.
Qed.

Lemma put_all_returns (cs : list Cell.t) (s : Env.t) :
  well_stamped clock s →
  ∃ s', put_all clock cs s = Done s' ∧ well_stamped clock s' ∧ cells s' ≡ₚ cs ++ cells s.
Proof.
  revert s. induction cs as [|c cs IH]; intros s Hs; simpl.
  - eauto.
  - destruct (put_returns c s Hs) as (s1 & Hput & Hs1 & Hc1 & _). rewrite Hput. simpl.
    destruct (IH s1 Hs1) as (s2 & Hall & Hs2 & Hc2). exists s2.
    split; [exact Hall|]. split; [exact Hs2|].
    rewrite Hc2, Hc1. symmetry. apply Permutation_middle.
Qed.

Lemma get_returns (s : Env.t) :
  well_stamped clock s → Env.cell_queue s ≠ [] →
  ∃ cell s', get s = Done (cell, s') ∧ well_stamped clock s' ∧
             cells s ≡ₚ cell :: cells s'.
Proof.
  intros Hs Hne. pose proof Hs as [Hd Hb]. unfold get.
  destruct (heappop_returns tuple_lt (Env.cell_queue s) Hne
              (well_stamped_comparable clock s Hs)) as (item & q & Hpop).
  rewrite Hpop. simpl. eexists _, _. split; [reflexivity|].
  apply heappop_Permutation in Hpop.
  split; [split|]; simpl.
  - apply (pairwise_tail _ item). eapply pairwise_Permutation; [exact Hpop | exact Hd].
  - rewrite Hpop in Hb. apply Forall_cons in Hb as [_ Hb]. exact Hb.
  - unfold cells. simpl. rewrite Hpop. reflexivity.
Qed.
End advancing_clock.

(** ** What a subdivision leaves in the frontier *)

Lemma put_Done (clock : nat → Q) (c : Cell.t) (s s' : Env.t) :
  put clock c s = Done s' →
  cells s' ≡ₚ c :: cells s ∧
  Env.clock_reads s' = S (Env.clock_reads s) ∧ Env.pops s' = Env.pops s.
Proof.
  unfold put. intros H. apply bind_Done in H as (q & Hq & H). injection H as <-.
  apply heappush_Permutation in Hq. unfold cells. simpl. rewrite Hq. auto.
Qed.

Lemma put_all_Done (clock : nat → Q) (cs : list Cell.t) (s s' : Env.t) :
  put_all clock cs s = Done s' →
  cells s' ≡ₚ cs ++ cells s ∧
  Env.clock_reads s' = (length cs + Env.clock_reads s)%nat ∧ Env.pops s' = Env.pops s.
Proof.
  revert s. induction cs as [|c cs IH]; intros s H; simpl in H.
  - injection H as <-. auto.
  - apply bind_Done in H as (s1 & Hput & H).
    apply put_Done in Hput as (Hc1 & Hn1 & Hp1). apply IH in H as (Hc & Hn & Hp).
    split; [|split].
    + rewrite Hc, Hc1. symmetry. apply Permutation_middle.
    + rewrite Hn, Hn1. simpl. lia.
    + congruence.
Qed.

Lemma get_Done (s : Env.t) (cell : Cell.t) (s' : Env.t) :
  get s = Done (cell, s') →
  cells s ≡ₚ cell :: cells s' ∧
  Env.clock_reads s' = Env.clock_reads s ∧ Env.pops s' = S (Env.pops s).
Proof.
  unfold get. intros H. apply bind_Done in H as ([item q] & Hq & H).
  injection H as <- <-. apply heappop_Permutation in Hq.
  unfold cells. simpl. rewrite Hq. auto.
Qed.

(** X4: an iteration that returns has popped one cell; when it prunes, the
    frontier has lost that cell and the clock was not read; when it
    subdivides, the frontier has lost the cell and gained its four children,
    and the clock was read four times. *)
Lemma iteration_frontier (clock : nat → Q) (polygon_geom : Polygon.t) (tolerance : Q)
    (best_cell : Cell.t) (s : Env.t) (best' : Cell.t) (s' : Env.t) :
  iteration clock polygon_geom tolerance best_cell s = Done (best', s') →
  ∃ cell, Env.pops s' = S (Env.pops s) ∧
    if prune tolerance (improve best_cell cell) cell
    then cells s ≡ₚ cell :: cells s' ∧ Env.clock_reads s' = Env.clock_reads s
    else cell :: cells s' ≡ₚ children polygon_geom cell ++ cells s ∧
         Env.clock_reads s' = (4 + Env.clock_reads s)%nat.
Proof.
  unfold iteration. intros H. apply bind_Done in H as ([cell s1] & Hget & H).
  apply get_Done in Hget as (Hc & Hn & Hp). exists cell.
  destruct (prune tolerance (improve best_cell cell) cell).
  - injection H as _ <-. auto.
  - apply bind_Done in H as (s2 & Hput & H). injection H as _ <-.
    apply put_all_Done in Hput as (Hc2 & Hn2 & Hp2).
    split; [congruence|]. split; [|rewrite Hn2, Hn; reflexivity].
    rewrite Hc2, Hc. apply Permutation_middle.
Qed.

(** ** One iteration of the main loop *)




(** ** Halving reaches zero *)

Lemma float_on_grid (f : Q) : is_float f → ∃ z : Z, f == inject_Z z * 2 ^ emin.
Proof.
  intros (m & e & He & _ & Ef). destruct (float_multiple m e emin He) as [z Ez].
  exists z. rewrite Ef. exact Ez.
Qed.

Lemma smallest_is_float : is_float (2 ^ emin).
Proof.
  exists 1%Z, emin. split; [lia|]. split; [simpl; lia | ring].
Qed.

(** Half of a positive float rounds to a smaller float. *)
Lemma half_is_smaller (h : Q) : is_float h → 0 < h → h ⊘ 2 < h.
Proof.
  intros Hf Hpos. destruct (float_on_grid h Hf) as [z Ez].
  pose proof (two_pow_pos emin) as Hu. set (u := 2 ^ emin) in *.
  assert (Hz : (1 ≤ z)%Z).
  { destruct (Z_le_gt_dec 1 z) as [?|Hgt]; [assumption|]. exfalso.
    assert (Hz0 : (z ≤ 0)%Z) by lia. rewrite Zle_Qle in Hz0.
    change (inject_Z 0) with 0 in Hz0. nra. }
  unfold fdiv. destruct (Z.eq_dec z 1%Z) as [->|Hne].
  - rewrite (b64_comp (h / 2) (2 ^ emin / 2)).
    + change (b64 (2 ^ emin / 2)) with 0. exact Hpos.
    + rewrite Ez. fold u. field.
  - assert (Hz2 : (2 ≤ z)%Z) by lia. rewrite Zle_Qle in Hz2.
    change (inject_Z 2) with 2 in Hz2.
    assert (Huh : u < h) by (rewrite Ez; nra).
    pose proof (b64_nearest (h / 2) u smallest_is_float) as Hn.
    assert (Eh : h / 2 == h * (1 # 2)) by (field).
    rewrite Eh in Hn. rewrite (b64_comp (h / 2) (h * (1 # 2)) Eh).
    destruct (Qabs_spec (b64 (h * (1 # 2)) - h * (1 # 2))) as [[? Ea] | [? Ea]];
      rewrite Ea in Hn;
      destruct (Qabs_spec (u - h * (1 # 2))) as [[? Eb] | [? Eb]]; rewrite Eb in Hn; lra.
Qed.

Lemma fits_S (k : nat) (h : Q) : fits (S k) h ↔ fits k (h ⊘ 2).
Proof. reflexivity. Qed.

Lemma fits_halve (k : nat) (h : Q) : fits k h → fits k (h ⊘ 2).
Proof.
  revert h. induction k as [|k IH]; intros h H.
  - unfold fits in *. simpl in *. apply fdiv_0_l, H.
  - apply fits_S. apply IH. apply fits_S, H.
Qed.

Lemma halvings_reach_zero (h : Q) : is_float h → 0 <= h → ∃ k : nat, fits k h.
Proof.
  intros Hf Hh. destruct (float_on_grid h Hf) as [z Ez].
  pose proof (two_pow_pos emin) as Hu.
  assert (Hbound : h <= inject_Z (Z.of_nat (Z.to_nat z)) * 2 ^ emin).
  { rewrite Ez. apply Qmult_le_compat_r; [|lra]. rewrite <- Zle_Qle. lia. }
  clear Ez. revert h Hf Hh Hbound. generalize (Z.to_nat z) as n. clear z.
  induction n as [|n IH]; intros h Hf Hh Hbound.
  - exists 0%nat. unfold fits. simpl. change (inject_Z (Z.of_nat 0)) with 0 in Hbound. lra.
  - destruct (Qeq_dec h 0) as [E|Hne]; [exists 0%nat; exact E|].
    assert (Hpos : 0 < h).
    { destruct (Qlt_le_dec 0 h) as [?|Hle]; [assumption|]. exfalso. apply Hne. lra. }
    pose proof (half_is_smaller h Hf Hpos) as Hlt.
    assert (Hf' : is_float (h ⊘ 2)) by apply b64_is_float.
    assert (Hh' : 0 <= h ⊘ 2).
    { apply b64_nonneg. apply Qle_shift_div_l; lra. }
    destruct (IH (h ⊘ 2) Hf' Hh') as [k Hk].
    + destruct (float_on_grid h Hf) as [z Ez].
      destruct (float_on_grid (h ⊘ 2) Hf') as [z' Ez'].
      set (u := 2 ^ emin) in *. rewrite Ez' in *. rewrite Ez in Hlt, Hbound.
      assert (Hzz : (z' < z)%Z).
      { destruct (Z_lt_ge_dec z' z) as [?|Hge]; [assumption|]. exfalso.
        assert (Hge' : (z ≤ z')%Z) by lia. rewrite Zle_Qle in Hge'. nra. }
      assert (Hzn : (z ≤ Z.of_nat (S n))%Z).
      { destruct (Z_le_gt_dec z (Z.of_nat (S n))) as [?|Hgt]; [assumption|]. exfalso.
        assert (Hgt' : (Z.of_nat (S n) + 1 ≤ z)%Z) by lia. rewrite Zle_Qle in Hgt'.
        rewrite inject_Z_plus in Hgt'. change (inject_Z 1) with 1 in Hgt'. nra. }
      apply Qmult_le_compat_r; [|lra]. rewrite <- Zle_Qle. lia.
    + exists (S k). apply fits_S, Hk.
Qed.

(** ** The measure decreases *)

Lemma nodes_pos (r : nat) : (1 ≤ nodes r)%nat.
Proof. destruct r; simpl; lia. Qed.

Lemma rank_fuel (k : nat) (h : Q) : fits k h → rank (S k) h = rank k h.
Proof.
  revert h. induction k as [|k IH]; intros h Hfit.
  - unfold fits in Hfit. simpl in Hfit. simpl.
    apply Qeq_bool_iff in Hfit. rewrite Hfit. reflexivity.
  - change (rank (S (S k)) h)
      with (if Qeq_bool h 0 then O else S (rank (S k) (h ⊘ 2))).
    change (rank (S k) h) with (if Qeq_bool h 0 then O else S (rank k (h ⊘ 2))).
    destruct (Qeq_bool h 0); [reflexivity|].
    f_equal. apply IH. apply fits_S, Hfit.
Qed.

Lemma rank_step (k : nat) (h : Q) :
  fits k h → ¬ h == 0 → rank k h = S (rank k (h ⊘ 2)) ∧ fits k (h ⊘ 2).
Proof.
  intros Hfit Hbig. destruct k as [|k].
  - contradiction.
  - assert (Hhalf : fits k (h ⊘ 2)) by (apply fits_S, Hfit).
    split; [|apply fits_halve, Hfit].
    rewrite (rank_fuel k (h ⊘ 2) Hhalf).
    change (rank (S k) h) with (if Qeq_bool h 0 then O else S (rank k (h ⊘ 2))).
    destruct (Qeq_bool h 0) eqn:E; [|reflexivity].
    apply Qeq_bool_iff in E. contradiction.
Qed.

Lemma improve_ge (best_cell cell : Cell.t) :
  Cell.d cell <= Cell.d (improve best_cell cell).
Proof.
  unfold improve. destruct (Qlt_bool (Cell.d best_cell) (Cell.d cell)) eqn:E.
  - apply Qle_refl.
  - apply Qlt_bool_false in E. exact E.
Qed.

(** A cell of half-size zero is dropped: its bound is its distance, which
    is not above the distance of the best cell. *)
Lemma not_pruned_has_size (tolerance : Q) (k : nat) (best_cell cell : Cell.t) :
  0 < tolerance →
  sound_cell k cell →
  prune tolerance (improve best_cell cell) cell = false →
  ¬ Cell.h cell == 0.
Proof.
  intros Htol (Hmax & Hd & _) Hprune E. unfold prune in Hprune.
  pose proof (improve_ge best_cell cell) as Hge.
  assert (Emax : Cell.max cell == Cell.d cell).
  { rewrite Hmax.
    rewrite (fadd_proper _ _ (Qeq_refl (Cell.d cell)) _ 0 (fmul_0_l _ sqrt2 E)).
    apply fadd_0_r, Hd. }
  assert (Hle : Cell.max cell ⊖ Cell.d (improve best_cell cell) <= tolerance).
  { apply (Qle_trans _ 0); [|lra]. apply b64_le_float; [reflexivity | lra]. }
  apply Qle_bool_iff in Hle. congruence.
Qed.

Lemma children_sound (polygon_geom : Polygon.t) (k : nat) (cell : Cell.t) :
  (∀ p, representable (Polygon.distanceTo polygon_geom p)) →
  fits k (Cell.h cell ⊘ 2) →
  Forall (sound_cell k) (children polygon_geom cell) ∧
  sum_list_with (weight k) (children polygon_geom cell)
  = (4 * nodes (rank k (Cell.h cell ⊘ 2)))%nat.
Proof.
  intros Hrep Hfit. unfold children. simpl. split.
  - repeat constructor; simpl; (reflexivity || apply Hrep || exact Hfit).
  - unfold weight. simpl. lia.
Qed.

(** ** The main loop returns *)

Section search_returns.
Variable clock : nat → Q.
Hypothesis clock_advances : advancing clock.
Variable polygon_geom : Polygon.t.
Hypothesis distances_float : ∀ p, representable (Polygon.distanceTo polygon_geom p).
Variable tolerance : Q.
Hypothesis tolerance_pos : 0 < tolerance.
Variable depth : nat.

Lemma search_returns (fuel : nat) (best_cell : Cell.t) (s : Env.t) :
  well_stamped clock s →
  Forall (sound_cell depth) (cells s) →
  (sum_list_with (weight depth) (cells s) ≤ fuel)%nat →
  ∃ best' s', search clock polygon_geom tolerance fuel best_cell s = Done (best', s') ∧
              Env.cell_queue s' = [].
Proof.
  revert best_cell s. induction fuel as [|fuel IH]; intros best_cell s Hs Hsound Hsum.
  - simpl. destruct (Env.cell_queue s) as [|e q] eqn:E; [eauto|].
    exfalso. unfold cells in Hsum. rewrite E in Hsum. simpl in Hsum.
    pose proof (nodes_pos (rank depth (Cell.h (entry_cell e)))).
    unfold weight in Hsum. lia.
  - simpl. destruct (Env.cell_queue s) as [|e q] eqn:E; [eauto|].
    destruct (get_returns clock s Hs) as (cell & s1 & Hget & Hs1 & Hcells).
    { rewrite E. discriminate. }
    rewrite Hcells in Hsound, Hsum. apply Forall_cons in Hsound as [Hcell Hsound].
    simpl in Hsum. unfold iteration. rewrite Hget.
    unfold mbind at 2, outcome_bind at 2. cbv beta iota.
    destruct (prune tolerance (improve best_cell cell) cell) eqn:Hprune.
    + unfold mbind, outcome_bind. apply IH; [exact Hs1 | exact Hsound |].
      pose proof (nodes_pos (rank depth (Cell.h cell))).
      unfold weight in Hsum at 1. lia.
    + pose proof (not_pruned_has_size _ _ _ _ tolerance_pos Hcell Hprune) as Hlarge.
      destruct Hcell as (_ & _ & Hfit).
      destruct (rank_step depth (Cell.h cell) Hfit Hlarge) as [Hrank Hhalf].
      destruct (children_sound polygon_geom depth cell distances_float Hhalf)
        as [Hkids Hweight].
      destruct (put_all_returns clock clock_advances (children polygon_geom cell) s1 Hs1)
        as (s2 & Hput & Hs2 & Hcells2).
      rewrite Hput. unfold mbind, outcome_bind.
      apply IH; [exact Hs2 | |].
      * rewrite Hcells2. apply Forall_app. split; assumption.
      * rewrite Hcells2, sum_list_with_app, Hweight.
        unfold weight in Hsum at 1. rewrite Hrank in Hsum. simpl in Hsum. lia.
Qed.
End search_returns.

(** ** More fuel does not change a result *)

Section more_fuel.
Variable clock : nat → Q.
Variable polygon_geom : Polygon.t.

Lemma seed_column_more_fuel (fuel fuel' : nat) (x y : Q) (s s' : Env.t) :
  seed_column clock polygon_geom fuel x y s = Done s' → (fuel ≤ fuel')%nat →
  seed_column clock polygon_geom fuel' x y s = Done s'.
Proof.
  revert fuel' y s. induction fuel as [|fuel IH]; intros fuel' y s H Hle.
  - simpl in H. destruct fuel'; simpl;
      destruct (Qlt_bool y (max_y polygon_geom)); congruence.
  - destruct fuel' as [|fuel']; [lia|]. simpl in *.
    destruct (Qlt_bool y (max_y polygon_geom)); [|exact H].
    apply bind_Done in H as (s1 & Hput & H). rewrite Hput. simpl.
    apply IH; [exact H | lia].
Qed.

Lemma seed_grid_more_fuel (budget budget' fuel fuel' : nat) (x : Q) (s s' : Env.t) :
  seed_grid clock polygon_geom budget fuel x s = Done s' →
  (budget ≤ budget')%nat → (fuel ≤ fuel')%nat →
  seed_grid clock polygon_geom budget' fuel' x s = Done s'.
Proof.
  revert fuel' x s. induction fuel as [|fuel IH]; intros fuel' x s H Hb Hle.
  - simpl in H. destruct fuel'; simpl;
      destruct (Qlt_bool x (max_x polygon_geom)); congruence.
  - destruct fuel' as [|fuel']; [lia|]. simpl in *.
    destruct (Qlt_bool x (max_x polygon_geom)); [|exact H].
    apply bind_Done in H as (s1 & Hcol & H).
    rewrite (seed_column_more_fuel budget budget' x (min_y polygon_geom) s s1 Hcol Hb).
    simpl. apply IH; [exact H | exact Hb | lia].
Qed.
End more_fuel.

(** ** The cells of the initial grid *)

Section seeding_sound.
Variable clock : nat → Q.
Hypothesis clock_advances : advancing clock.
Variable polygon_geom : Polygon.t.
Hypothesis distances_float : ∀ p, representable (Polygon.distanceTo polygon_geom p).
Variable depth : nat.
Hypothesis first_fits : fits depth (cell_size polygon_geom ⊘ 2).

Lemma put_sound (c : Cell.t) (s s' : Env.t) :
  well_stamped clock s → Forall (sound_cell depth) (cells s) → sound_cell depth c →
  put clock c s = Done s' →
  well_stamped clock s' ∧ Forall (sound_cell depth) (cells s').
Proof.
  intros Hs Hsound Hc H.
  destruct (put_returns clock clock_advances c s Hs) as (s1 & Hput & Hs1 & Hcells & _).
  assert (s1 = s') as -> by congruence.
  split; [exact Hs1|]. rewrite Hcells. constructor; assumption.
Qed.

Lemma seed_column_sound (fuel : nat) (x y : Q) (s s' : Env.t) :
  well_stamped clock s → Forall (sound_cell depth) (cells s) →
  seed_column clock polygon_geom fuel x y s = Done s' →
  well_stamped clock s' ∧ Forall (sound_cell depth) (cells s').
Proof.
  revert y s. induction fuel as [|fuel IH]; intros y s Hs Hsound H; simpl in H;
    destruct (Qlt_bool y (max_y polygon_geom)); try discriminate;
    try (injection H as <-; auto).
  apply bind_Done in H as (s1 & Hput & H).
  apply put_sound in Hput as [Hs1 Hsound1]; [| exact Hs | exact Hsound |].
  - exact (IH _ _ Hs1 Hsound1 H).
  - split; [reflexivity|]. split; [apply distances_float | exact first_fits].
Qed.

Lemma seed_grid_sound (budget fuel : nat) (x : Q) (s s' : Env.t) :
  well_stamped clock s → Forall (sound_cell depth) (cells s) →
  seed_grid clock polygon_geom budget fuel x s = Done s' →
  well_stamped clock s' ∧ Forall (sound_cell depth) (cells s').
Proof.
  revert x s. induction fuel as [|fuel IH]; intros x s Hs Hsound H; simpl in H;
    destruct (Qlt_bool x (max_x polygon_geom)); try discriminate;
    try (injection H as <-; auto).
  apply bind_Done in H as (s1 & Hcol & H).
  apply seed_column_sound in Hcol as [Hs1 Hsound1]; [| exact Hs | exact Hsound].
  exact (IH _ _ Hs1 Hsound1 H).
Qed.
End seeding_sound.

(** ** Termination of the search *)

Lemma cell_size_nonneg (polygon_geom : Polygon.t) :
  valid_extent polygon_geom → 0 <= cell_size polygon_geom.
Proof.
  intros [Hx Hy]. unfold cell_size.
  destruct (py_min_cases (width polygon_geom) (height polygon_geom)) as [-> | ->];
    unfold width, height, fsub; apply b64_nonneg; lra.
Qed.

(** X1: under a clock that advances between any two readings, with float
    distances, a proper bounding box and a positive tolerance, the main loop
    comes to its end once the grid loops of lines 105-112 have: if the grid
    is laid out within some number of steps, the search returns for every
    large enough fuel, and the frontier is then empty.  Halving [h] brings it
    down to zero after finitely many levels, a cell of half-size zero is
    dropped, and [best_cell.d] is never below the [d] of the popped cell. *)
Theorem search_terminates (clock : nat → Q) (tolerance_value : option Q)
    (polygon_geom : Polygon.t) (rest : list Polygon.t) (steps : nat) (s0 : Env.t) :
  advancing clock →
  valid_extent polygon_geom →
  (∀ p, representable (Polygon.distanceTo polygon_geom p)) →
  0 < tolerance_of tolerance_value →
  degenerate polygon_geom (tolerance_of tolerance_value) = false →
  seed_grid clock polygon_geom steps steps (min_x polygon_geom) Env.start = Done s0 →
  ∃ enough : nat, ∀ fuel : nat, (enough ≤ fuel)%nat →
    ∃ out s, execute clock tolerance_value (polygon_geom :: rest) fuel = Done (out, s) ∧
             Env.cell_queue s = [].
Proof.
  intros Hclock Hext Hrep Htol Hdeg Hseed.
  set (tolerance := tolerance_of tolerance_value) in *.
  pose proof (cell_size_nonneg polygon_geom Hext) as Hsize.
  destruct (halvings_reach_zero (cell_size polygon_geom ⊘ 2)) as [depth Hdepth].
  { apply b64_is_float. }
  { apply b64_nonneg. apply Qle_shift_div_l; lra. }
  assert (Hstart : well_stamped clock Env.start).
  { split; [apply pairwise_nil | constructor]. }
  destruct (seed_grid_sound clock Hclock polygon_geom Hrep depth Hdepth
              steps steps (min_x polygon_geom) Env.start s0 Hstart (Forall_nil_2 _) Hseed)
    as [Hs0 Hsound].
  exists (Nat.max steps (sum_list_with (weight depth) (cells s0))).
  intros fuel Hfuel.
  destruct (search_returns clock Hclock polygon_geom Hrep tolerance Htol depth fuel
              (initial_best polygon_geom) s0 Hs0 Hsound) as (best & s' & Hsearch & Hempty).
  { lia. }
  exists {| Output.shape := Point.make (Cell.x best) (Cell.y best);
            Output.spatial_reference := Polygon.spatialReference polygon_geom |}, s'.
  split; [|exact Hempty].
  unfold execute, first_feature. simpl. fold tolerance. unfold locate. rewrite Hdeg.
  rewrite (seed_grid_more_fuel clock polygon_geom steps fuel steps fuel _ _ _ Hseed) by lia.
  simpl. rewrite Hsearch. reflexivity.
Qed.

Lemma steady_advances : advancing steady.
Proof.
  intros i j Hij. unfold steady. rewrite <- Zlt_Qlt. lia.
Qed.

Lemma hurried_advances : advancing hurried.
Proof.
  intros i j Hij. unfold hurried.
  assert (inject_Z (Z.of_nat i) < inject_Z (Z.of_nat j)) by (rewrite <- Zlt_Qlt; lia).
  lra.
Qed.

Lemma search_terminates_witness :
  advancing steady ∧ valid_extent square ∧
  (∀ p, representable (Polygon.distanceTo square p)) ∧
  0 < tolerance_of (Some (1 # 10)) ∧
  degenerate square (tolerance_of (Some (1 # 10))) = false ∧
  seed_grid steady square 1 1 (min_x square) Env.start = Done square_grid ∧
  ∃ enough : nat, ∀ fuel : nat, (enough ≤ fuel)%nat →
    ∃ out s, execute steady (Some (1 # 10)) [square] fuel = Done (out, s) ∧
             Env.cell_queue s = [].
Proof.
  assert (H1 : advancing steady) by exact steady_advances.
  assert (H2 : valid_extent square) by (split; unfold Qle; simpl; lia).
  assert (H3 : ∀ p, representable (Polygon.distanceTo square p))
    by (intros p; apply b64_representable).
  assert (H4 : 0 < tolerance_of (Some (1 # 10))) by reflexivity.
  assert (H5 : degenerate square (tolerance_of (Some (1 # 10))) = false) by reflexivity.
  assert (H6 : seed_grid steady square 1 1 (min_x square) Env.start = Done square_grid)
    by (vm_compute; reflexivity).
  repeat (split; [assumption|]).
  exact (search_terminates steady (Some (1 # 10)) square [] 1 square_grid H1 H2 H3 H4 H5 H6).
Defined.

(** C8 on the code: with a clock too coarse to advance during the run, the
    second child of the first cell of the square ties with the first on
    both [-c.max] and the reading, [put] has to order two cells, and the run
    stops on [TypeError] with cells still waiting, whatever the fuel. *)
Theorem stalled_clock_raises (fuel : nat) :
  valid_extent square ∧ 0 < 1 # 10 ∧ degenerate square (1 # 10) = false ∧
  execute stalled (Some (1 # 10)) [square] (S fuel) = Raised TypeError.
Proof.
  split; [split; unfold Qle; simpl; lia|]. split; [reflexivity|]. split; [reflexivity|].
  destruct fuel as [|fuel]; vm_compute; reflexivity.
Qed.

(** ** The clock decides the ties *)

(** C3, as the code has it: ties on [-c.max] are decided by the readings of
    [time.time()] taken at the insertions, the earlier reading first.  Under
    a clock that advances between any two readings this is the order of
    insertion, and two runs on the same tolerance and features then end
    alike, whatever the readings are. *)
Theorem advancing_clocks_agree (clock1 clock2 : nat → Q) (tolerance_value : option Q)
    (input_features : list Polygon.t) (fuel : nat) :
  advancing clock1 → advancing clock2 →
  (∀ (key1 key2 : Q) (c1 c2 : Cell.t) (i j : nat), key1 == key2 →
     tuple_lt (key1, clock1 i, c1) (key2, clock1 j, c2)
     = if (i =? j)%nat then Raised TypeError else Done (i <? j)%nat) ∧
  execute clock1 tolerance_value input_features fuel
  = execute clock2 tolerance_value input_features fuel.
Proof.
  intros H1 H2. split.
  - intros key1 key2 c1 c2 i j Hkey. unfold tuple_lt.
    apply Qeq_bool_iff in Hkey. rewrite Hkey. simpl.
    rewrite advancing_eq, advancing_lt by exact H1.
    destruct (i =? j)%nat; reflexivity.
  - unfold execute. destruct (first_feature input_features) as [polygon_geom| |];
      [|reflexivity..]. simpl.
    rewrite (locate_same clock1 clock2 H1 H2 polygon_geom _ fuel). reflexivity.
Qed.

Lemma advancing_clocks_agree_witness :
  advancing steady ∧ advancing hurried ∧
  execute steady (Some (36 # 5)) [dumbbell] 3
  = execute hurried (Some (36 # 5)) [dumbbell] 3.
Proof.
  assert (H1 : advancing steady) by exact steady_advances.
  assert (H2 : advancing hurried) by exact hurried_advances.
  split; [exact H1|]. split; [exact H2|].
  exact (proj2 (advancing_clocks_agree steady hurried (Some (36 # 5)) [dumbbell] 3 H1 H2)).
Defined.

(** The claim of C3 fails on the code: on the same polygon and tolerance,
    the run returns the centre (5,5) of the left square under a clock that
    advances, the centre (25,5) of the right square when the clock is set
    back after the first insertion, and stops on [TypeError] when the clock
    does not advance. *)
Lemma clock_decides_result :
  execute steady (Some (36 # 5)) [dumbbell] 3
  = Done ({| Output.shape := Point.make 5 5;
             Output.spatial_reference := 3857 |},
          {| Env.cell_queue := []; Env.clock_reads := 3; Env.pops := 3 |}) ∧
  execute set_back (Some (36 # 5)) [dumbbell] 3
  = Done ({| Output.shape := Point.make 25 5;
             Output.spatial_reference := 3857 |},
          {| Env.cell_queue := []; Env.clock_reads := 3; Env.pops := 3 |}) ∧
  execute stalled (Some (36 # 5)) [dumbbell] 3 = Raised TypeError ∧
  execute steady (Some (36 # 5)) [dumbbell] 3
  ≠ execute set_back (Some (36 # 5)) [dumbbell] 3.
Proof.
  split; [vm_compute; reflexivity|]. split; [vm_compute; reflexivity|].
  split; [vm_compute; reflexivity|]. vm_compute. discriminate.
Qed.

(** ** Which exceptions a run can raise *)

Lemma bind_raises {A B : Type} (m : outcome A) (f : A → outcome B) :
  raises_at_most_TypeError m →
  (∀ a, m = Done a → raises_at_most_TypeError (f a)) →
  raises_at_most_TypeError (m ≫= f).
Proof.
  intros Hm Hf e H. destruct m as [a| |]; simpl in H.
  - exact (Hf a eq_refl e H).
  - apply Hm. congruence.
  - discriminate.
Qed.

Lemma Done_raises {A : Type} (a : A) : raises_at_most_TypeError (Done a).
Proof. intros e H. discriminate. Qed.

Section heapq_raises.
Context {A : Type} (lt : A → A → outcome bool).
Hypothesis lt_raises : ∀ a b, raises_at_most_TypeError (lt a b).

Lemma parent_lt (pos : nat) : (0 < pos)%nat → ((pos - 1) / 2 < pos)%nat.
Proof.
  intros H. apply (Nat.le_lt_trans _ (pos - 1)); [apply Nat.Div0.div_le_upper_bound; lia | lia].
Qed.

Lemma siftdown_loop_raises (fuel : nat) (heap : list A) (x : A) (startpos pos : nat) :
  (pos < length heap)%nat →
  raises_at_most_TypeError (siftdown_loop lt fuel heap x startpos pos).
Proof.
  revert heap pos. induction fuel as [|fuel IH]; intros heap pos Hpos;
    cbn [siftdown_loop].
  - apply Done_raises.
  - destruct (Nat.ltb_spec startpos pos) as [Hlt|Hge]; [|apply Done_raises].
    pose proof (parent_lt pos ltac:(lia)) as Hpp.
    destruct (lookup_lt_is_Some_2 heap ((pos - 1) / 2)) as [parent Hp]; [lia|].
    rewrite Hp. apply bind_raises; [apply lt_raises|].
    intros [|] _; [|apply Done_raises].
    apply IH. rewrite length_insert. lia.
Qed.

Lemma heappush_raises (heap : list A) (item : A) :
  raises_at_most_TypeError (heappush lt heap item).
Proof.
  unfold heappush, siftdown. rewrite list_lookup_middle by reflexivity.
  apply siftdown_loop_raises. rewrite length_app. simpl. lia.
Qed.

Lemma siftup_loop_raises (fuel : nat) (heap : list A) (pos : nat) :
  raises_at_most_TypeError (siftup_loop lt fuel heap pos).
Proof.
  revert heap pos. induction fuel as [|fuel IH]; intros heap pos; cbn [siftup_loop].
  - apply Done_raises.
  - destruct (Nat.ltb_spec (2 * pos + 1) (length heap)) as [Hc|Hc]; [|apply Done_raises].
    apply bind_raises.
    + destruct (Nat.ltb_spec (2 * pos + 1 + 1) (length heap)) as [Hr|Hr]; [|apply Done_raises].
      destruct (lookup_lt_is_Some_2 heap (2 * pos + 1)) as [l Hl]; [lia|].
      destruct (lookup_lt_is_Some_2 heap (2 * pos + 1 + 1)) as [r Hr']; [lia|].
      rewrite Hl, Hr'. apply bind_raises; [apply lt_raises|].
      intros b _. apply Done_raises.
    + intros c Hchild. apply siftup_child in Hchild as [_ Hcl]; [|exact Hc].
      destruct (lookup_lt_is_Some_2 heap c Hcl) as [child Hlook]. rewrite Hlook.
      apply IH.
Qed.

Lemma siftup_raises (heap : list A) (pos : nat) :
  (pos < length heap)%nat → raises_at_most_TypeError (siftup lt heap pos).
Proof.
  intros Hpos. unfold siftup.
  destruct (lookup_lt_is_Some_2 heap pos Hpos) as [newitem Hlook]. rewrite Hlook.
  apply bind_raises; [apply siftup_loop_raises|].
  intros [h1 p1] Hloop.
  apply siftup_loop_Permutation in Hloop as [Hlen _]; [|exact Hpos].
  unfold siftdown. rewrite list_lookup_insert_eq by exact Hlen.
  apply siftdown_loop_raises. rewrite length_insert. exact Hlen.
Qed.

Lemma heappop_raises (heap : list A) :
  heap ≠ [] → raises_at_most_TypeError (heappop lt heap).
Proof.
  intros Hne. unfold heappop.
  destruct (last heap) as [lastelt|] eqn:Hlast.
  2:{ apply last_None in Hlast. contradiction. }
  destruct (removelast heap) as [|returnitem rest]; [apply Done_raises|].
  apply bind_raises; [apply siftup_raises; simpl; lia|].
  intros h1 _. apply Done_raises.
Qed.
End heapq_raises.

Lemma tuple_lt_raises (a b : entry) : raises_at_most_TypeError (tuple_lt a b).
Proof.
  destruct a as [[ka ta] ca], b as [[kb tb] cb]. unfold tuple_lt. intros e H.
  destruct (negb (Qeq_bool ka kb)); [discriminate|].
  destruct (negb (Qeq_bool ta tb)); [discriminate|]. congruence.
Qed.

Section run_raises.
Variable clock : nat → Q.
Variable polygon_geom : Polygon.t.
Variable tolerance : Q.

Lemma put_raises (c : Cell.t) (s : Env.t) : raises_at_most_TypeError (put clock c s).
Proof.
  unfold put. apply bind_raises; [apply heappush_raises, tuple_lt_raises|].
  intros q _. apply Done_raises.
Qed.

Lemma put_all_raises (cs : list Cell.t) (s : Env.t) :
  raises_at_most_TypeError (put_all clock cs s).
Proof.
  revert s. induction cs as [|c cs IH]; intros s; simpl; [apply Done_raises|].
  apply bind_raises; [apply put_raises | intros s' _; apply IH].
Qed.

Lemma get_raises (s : Env.t) :
  Env.cell_queue s ≠ [] → raises_at_most_TypeError (get s).
Proof.
  intros Hne. unfold get. apply bind_raises.
  - apply heappop_raises; [apply tuple_lt_raises | exact Hne].
  - intros [item q] _. apply Done_raises.
Qed.

Lemma iteration_raises (best_cell : Cell.t) (s : Env.t) :
  Env.cell_queue s ≠ [] →
  raises_at_most_TypeError (iteration clock polygon_geom tolerance best_cell s).
Proof.
  intros Hne. unfold iteration. apply bind_raises; [apply get_raises, Hne|].
  intros [cell s1] _. destruct (prune tolerance (improve best_cell cell) cell);
    [apply Done_raises|].
  apply bind_raises; [apply put_all_raises | intros s2 _; apply Done_raises].
Qed.

Lemma search_raises (fuel : nat) (best_cell : Cell.t) (s : Env.t) :
  raises_at_most_TypeError (search clock polygon_geom tolerance fuel best_cell s).
Proof.
  revert best_cell s. induction fuel as [|fuel IH]; intros best_cell s; simpl;
    destruct (Env.cell_queue s) as [|item q] eqn:E; try apply Done_raises.
  - intros e H. discriminate.
  - apply bind_raises; [apply iteration_raises; rewrite E; discriminate|].
    intros [b s'] _. apply IH.
Qed.

Lemma seed_column_raises (fuel : nat) (x y : Q) (s : Env.t) :
  raises_at_most_TypeError (seed_column clock polygon_geom fuel x y s).
Proof.
  revert y s. induction fuel as [|fuel IH]; intros y s; simpl;
    destruct (Qlt_bool y (max_y polygon_geom)); try apply Done_raises.
  - intros e H. discriminate.
  - apply bind_raises; [apply put_raises | intros s' _; apply IH].
Qed.

Lemma seed_grid_raises (budget fuel : nat) (x : Q) (s : Env.t) :
  raises_at_most_TypeError (seed_grid clock polygon_geom budget fuel x s).
Proof.
  revert x s. induction fuel as [|fuel IH]; intros x s; simpl;
    destruct (Qlt_bool x (max_x polygon_geom)); try apply Done_raises.
  - intros e H. discriminate.
  - apply bind_raises; [apply seed_column_raises | intros s' _; apply IH].
Qed.

Lemma locate_raises (fuel : nat) :
  raises_at_most_TypeError (locate clock polygon_geom tolerance fuel).
Proof.
  unfold locate. destruct (degenerate polygon_geom tolerance); [apply Done_raises|].
  apply bind_raises; [apply seed_grid_raises|]. intros s _.
  apply bind_raises; [apply search_raises|]. intros [b s'] _. apply Done_raises.
Qed.
End run_raises.

(** X2: with no feature in the input the run stops on the unbound
    [polygon_geom]; with a feature, the only exception a run can raise is
    the [TypeError] of two entries that cannot be ordered: the heap is never
    indexed out of range and never popped when empty. *)
Theorem execute_raises_only (clock : nat → Q) (tolerance_value : option Q)
    (input_features : list Polygon.t) (fuel : nat) (e : exn) :
  execute clock tolerance_value input_features fuel = Raised e →
  (input_features = [] ∧ e = UnboundLocalError) ∨
  (input_features ≠ [] ∧ e = TypeError).
Proof.
  unfold execute. destruct input_features as [|polygon_geom rest]; simpl; intros H.
  - left. split; [reflexivity | congruence].
  - right. split; [discriminate|].
    revert e H. apply bind_raises; [apply locate_raises|].
    intros [pole_pt s] _. apply Done_raises.
Qed.

Lemma execute_raises_only_witness :
  execute stalled (Some (1 # 10)) [square] 5 = Raised TypeError ∧
  (([square] = [] ∧ TypeError = UnboundLocalError) ∨
   ([square] ≠ [] ∧ TypeError = TypeError)).
Proof.
  assert (H : execute stalled (Some (1 # 10)) [square] 5 = Raised TypeError)
    by (vm_compute; reflexivity).
  split; [exact H|].
  exact (execute_raises_only stalled (Some (1 # 10)) [square] 5 TypeError H).
Defined.

(** ** No exception under an advancing clock *)

Lemma safe_bind {A B : Type} (P : A → Prop) (Q : B → Prop)
    (m : outcome A) (f : A → outcome B) :
  safe P m → (∀ a, P a → safe Q (f a)) → safe Q (m ≫= f).
Proof. destruct m as [a| |]; simpl; intros Hm Hf; auto. Qed.

Section safe_run.
Variable clock : nat → Q.
Hypothesis clock_advances : advancing clock.
Variable polygon_geom : Polygon.t.
Variable tolerance : Q.

Lemma put_safe (c : Cell.t) (s : Env.t) :
  well_stamped clock s → safe (well_stamped clock) (put clock c s).
Proof.
  intros Hs. destruct (put_returns clock clock_advances c s Hs) as (s' & -> & Hs' & _).
  exact Hs'.
Qed.

Lemma put_all_safe (cs : list Cell.t) (s : Env.t) :
  well_stamped clock s → safe (well_stamped clock) (put_all clock cs s).
Proof.
  intros Hs. destruct (put_all_returns clock clock_advances cs s Hs) as (s' & -> & Hs' & _).
  exact Hs'.
Qed.

Lemma iteration_safe (best_cell : Cell.t) (s : Env.t) :
  well_stamped clock s → Env.cell_queue s ≠ [] →
  safe (λ r, well_stamped clock r.2) (iteration clock polygon_geom tolerance best_cell s).
Proof.
  intros Hs Hne. unfold iteration.
  destruct (get_returns clock s Hs Hne) as (cell & s1 & -> & Hs1 & _).
  rewrite bind_of_Done.
  destruct (prune tolerance (improve best_cell cell) cell); [exact Hs1|].
  eapply safe_bind; [apply put_all_safe, Hs1|]. intros s2 Hs2. exact Hs2.
Qed.

Lemma search_safe (fuel : nat) (best_cell : Cell.t) (s : Env.t) :
  well_stamped clock s →
  safe (λ _, True) (search clock polygon_geom tolerance fuel best_cell s).
Proof.
  revert best_cell s. induction fuel as [|fuel IH]; intros best_cell s Hs; simpl;
    destruct (Env.cell_queue s) as [|item q] eqn:E; try exact I.
  eapply safe_bind; [apply iteration_safe; [exact Hs | rewrite E; discriminate]|].
  intros [b s'] Hs'. apply IH, Hs'.
Qed.

Lemma seed_column_safe (fuel : nat) (x y : Q) (s : Env.t) :
  well_stamped clock s →
  safe (well_stamped clock) (seed_column clock polygon_geom fuel x y s).
Proof.
  revert y s. induction fuel as [|fuel IH]; intros y s Hs; simpl;
    destruct (Qlt_bool y (max_y polygon_geom)); try exact I; try exact Hs.
  eapply safe_bind; [apply put_safe, Hs | intros s' Hs'; apply IH, Hs'].
Qed.

Lemma seed_grid_safe (budget fuel : nat) (x : Q) (s : Env.t) :
  well_stamped clock s →
  safe (well_stamped clock) (seed_grid clock polygon_geom budget fuel x s).
Proof.
  revert x s. induction fuel as [|fuel IH]; intros x s Hs; simpl;
    destruct (Qlt_bool x (max_x polygon_geom)); try exact I; try exact Hs.
  eapply safe_bind; [apply seed_column_safe, Hs | intros s' Hs'; apply IH, Hs'].
Qed.

Lemma locate_safe (fuel : nat) :
  safe (λ _, True) (locate clock polygon_geom tolerance fuel).
Proof.
  unfold locate. destruct (degenerate polygon_geom tolerance); [exact I|].
  eapply safe_bind.
  - apply seed_grid_safe. split; [apply pairwise_nil | constructor].
  - intros s Hs. eapply safe_bind; [apply search_safe, Hs|].
    intros [b s'] _. exact I.
Qed.
End safe_run.

(** X3: when the clock advances between any two readings, a run on an input
    with at least one feature raises no exception, whatever the polygon, the
    tolerance and the fuel: no two entries of the frontier ever tie on both
    their key and their reading. *)
Theorem advancing_clock_never_raises (clock : nat → Q) (tolerance_value : option Q)
    (polygon_geom : Polygon.t) (rest : list Polygon.t) (fuel : nat) (e : exn) :
  advancing clock →
  execute clock tolerance_value (polygon_geom :: rest) fuel ≠ Raised e.
Proof.
  intros Hclock. unfold execute, first_feature. simpl.
  pose proof (locate_safe clock Hclock polygon_geom (tolerance_of tolerance_value) fuel)
    as Hsafe.
  destruct (locate clock polygon_geom (tolerance_of tolerance_value) fuel) as [[p s]| |];
    simpl in *; [discriminate | contradiction | discriminate].
Qed.

Lemma advancing_clock_never_raises_witness :
  advancing hurried ∧
  execute hurried (Some (- (1))) [dumbbell; square] 7 ≠ Raised TypeError.
Proof.
  assert (H : advancing hurried) by exact hurried_advances.
  split; [exact H|].
  exact (advancing_clock_never_raises hurried (Some (- (1))) dumbbell [square] 7
           TypeError H).
Defined.

(** ** Nothing is lost in the frontier *)

Lemma iteration_frontier_witness :
  iteration steady square (1 # 10) (initial_best square) square_seeded
  = Done (initial_best square, square_split) ∧
  ∃ cell, Env.pops square_split = S (Env.pops square_seeded) ∧
    if prune (1 # 10) (improve (initial_best square) cell) cell
    then cells square_seeded ≡ₚ cell :: cells square_split ∧
         Env.clock_reads square_split = Env.clock_reads square_seeded
    else cell :: cells square_split ≡ₚ children square cell ++ cells square_seeded ∧
         Env.clock_reads square_split = (4 + Env.clock_reads square_seeded)%nat.
Proof.
  assert (H : iteration steady square (1 # 10) (initial_best square) square_seeded
              = Done (initial_best square, square_split)) by (vm_compute; reflexivity).
  split; [exact H|].
  exact (iteration_frontier steady square (1 # 10) (initial_best square) square_seeded
           (initial_best square) square_split H).
Defined.

Section balance.
Variable clock : nat → Q.
Variable polygon_geom : Polygon.t.
Variable tolerance : Q.

Lemma cells_length (s : Env.t) : length (cells s) = length (Env.cell_queue s).
Proof. unfold cells. apply length_fmap. Qed.

Lemma put_balanced (c : Cell.t) (s s' : Env.t) :
  put clock c s = Done s' → balanced s → balanced s'.
Proof.
  intros H Hb. apply put_Done in H as (Hc & Hn & Hp).
  apply Permutation_length in Hc. simpl in Hc. rewrite !cells_length in Hc.
  unfold balanced in *. lia.
Qed.

Lemma put_all_balanced (cs : list Cell.t) (s s' : Env.t) :
  put_all clock cs s = Done s' → balanced s → balanced s'.
Proof.
  intros H Hb. apply put_all_Done in H as (Hc & Hn & Hp).
  apply Permutation_length in Hc. rewrite length_app, !cells_length in Hc.
  unfold balanced in *. lia.
Qed.

Lemma iteration_balanced (best_cell : Cell.t) (s : Env.t) (best' : Cell.t) (s' : Env.t) :
  iteration clock polygon_geom tolerance best_cell s = Done (best', s') →
  balanced s → balanced s'.
Proof.
  unfold iteration. intros H Hb. apply bind_Done in H as ([cell s1] & Hget & H).
  apply get_Done in Hget as (Hc & Hn & Hp).
  apply Permutation_length in Hc. simpl in Hc. rewrite !cells_length in Hc.
  assert (Hb1 : balanced s1) by (unfold balanced in *; lia).
  destruct (prune tolerance (improve best_cell cell) cell).
  - injection H as _ <-. exact Hb1.
  - apply bind_Done in H as (s2 & Hput & H). injection H as _ <-.
    exact (put_all_balanced _ _ _ Hput Hb1).
Qed.

Lemma search_balanced (fuel : nat) (best_cell : Cell.t) (s : Env.t)
    (best' : Cell.t) (s' : Env.t) :
  search clock polygon_geom tolerance fuel best_cell s = Done (best', s') →
  balanced s → Env.cell_queue s' = [] ∧ Env.pops s' = Env.clock_reads s'.
Proof.
  revert best_cell s. induction fuel as [|fuel IH]; intros best_cell s H Hb; simpl in H;
    destruct (Env.cell_queue s) as [|item q] eqn:E; try discriminate.
  - injection H as _ <-. unfold balanced in Hb. rewrite E in *. simpl in Hb.
    split; [reflexivity | lia].
  - injection H as _ <-. unfold balanced in Hb. rewrite E in *. simpl in Hb.
    split; [reflexivity | lia].
  - apply bind_Done in H as ([b1 s1] & Hit & H).
    apply (IH b1 s1 H). exact (iteration_balanced _ _ _ _ Hit Hb).
Qed.

Lemma seed_column_balanced (fuel : nat) (x y : Q) (s s' : Env.t) :
  seed_column clock polygon_geom fuel x y s = Done s' → balanced s → balanced s'.
Proof.
  revert y s. induction fuel as [|fuel IH]; intros y s H Hb; simpl in H;
    destruct (Qlt_bool y (max_y polygon_geom)); try discriminate;
    try (injection H as <-; exact Hb).
  apply bind_Done in H as (s1 & Hput & H).
  apply (IH _ _ H). exact (put_balanced _ _ _ Hput Hb).
Qed.

Lemma seed_grid_balanced (budget fuel : nat) (x : Q) (s s' : Env.t) :
  seed_grid clock polygon_geom budget fuel x s = Done s' → balanced s → balanced s'.
Proof.
  revert x s. induction fuel as [|fuel IH]; intros x s H Hb; simpl in H;
    destruct (Qlt_bool x (max_x polygon_geom)); try discriminate;
    try (injection H as <-; exact Hb).
  apply bind_Done in H as (s1 & Hcol & H).
  apply (IH _ _ H). exact (seed_column_balanced _ _ _ _ _ Hcol Hb).
Qed.

Lemma locate_balanced (fuel : nat) (p : Point.t) (s : Env.t) :
  locate clock polygon_geom tolerance fuel = Done (p, s) →
  Env.cell_queue s = [] ∧ Env.pops s = Env.clock_reads s.
Proof.
  unfold locate. destruct (degenerate polygon_geom tolerance).
  - intros H. injection H as _ <-. split; reflexivity.
  - intros H. apply bind_Done in H as (s0 & Hseed & H).
    apply bind_Done in H as ([b s1] & Hsearch & H). injection H as _ <-.
    apply (search_balanced _ _ _ _ _ Hsearch).
    apply (seed_grid_balanced _ _ _ _ _ Hseed). reflexivity.
Qed.
End balance.

(** X5: when [execute] returns, the frontier is empty and the main loop has run
    once for every cell that was ever pushed: each [put] is matched by one
    [get]. *)
Theorem every_pushed_cell_is_popped (clock : nat → Q) (tolerance_value : option Q)
    (input_features : list Polygon.t) (fuel : nat) (out : Output.t) (s : Env.t) :
  execute clock tolerance_value input_features fuel = Done (out, s) →
  Env.cell_queue s = [] ∧ Env.pops s = Env.clock_reads s.
Proof.
  unfold execute. intros H. apply bind_Done in H as (polygon_geom & _ & H).
  apply bind_Done in H as ([p s1] & Hloc & H). injection H as _ <-.
  exact (locate_balanced _ _ _ _ _ _ Hloc).
Qed.

Lemma every_pushed_cell_is_popped_witness :
  execute steady (Some 0) [square] 200
  = Done ({| Output.shape := Point.make 5 5; Output.spatial_reference := 3857 |},
          {| Env.cell_queue := []; Env.clock_reads := 181; Env.pops := 181 |}) ∧
  (@nil entry = [] ∧ 181%nat = 181%nat).
Proof.
  assert (H : execute steady (Some 0) [square] 200
    = Done ({| Output.shape := Point.make 5 5; Output.spatial_reference := 3857 |},
            {| Env.cell_queue := []; Env.clock_reads := 181; Env.pops := 181 |}))
    by (vm_compute; reflexivity).
  split; [exact H|].
  exact (every_pushed_cell_is_popped steady (Some 0) [square] 200 _ _ H).
Defined.

(** ** The result is the best of the points that were tried *)

Lemma init_genuine (polygon_geom : Polygon.t) (x y h : Q) :
  genuine polygon_geom (Cell.init x y h polygon_geom).
Proof. split; reflexivity. Qed.

Lemma children_genuine (polygon_geom : Polygon.t) (cell : Cell.t) :
  Forall (genuine polygon_geom) (children polygon_geom cell).
Proof. unfold children. simpl. repeat constructor. Qed.

Lemma improve_genuine (polygon_geom : Polygon.t) (best_cell cell : Cell.t) :
  genuine polygon_geom best_cell → genuine polygon_geom cell →
  genuine polygon_geom (improve best_cell cell).
Proof. intros Hb Hc. unfold improve. destruct (Qlt_bool _ _); assumption. Qed.

Lemma initial_best_genuine (polygon_geom : Polygon.t) :
  genuine polygon_geom (initial_best polygon_geom).
Proof.
  unfold initial_best, get_centroid_cell. destruct (Qlt_bool _ _); apply init_genuine.
Qed.

Lemma point_eta (p : Point.t) : Point.make (Point.X p) (Point.Y p) = p.
Proof. destruct p. reflexivity. Qed.

Lemma initial_best_dominates (polygon_geom : Polygon.t) :
  Polygon.distanceTo polygon_geom (Polygon.centroid polygon_geom)
    <= Cell.d (initial_best polygon_geom) ∧
  Polygon.distanceTo polygon_geom
      (Point.make (min_x polygon_geom ⊕ width polygon_geom ⊘ 2)
                  (min_y polygon_geom ⊕ height polygon_geom ⊘ 2))
    <= Cell.d (initial_best polygon_geom).
Proof.
  unfold initial_best, get_centroid_cell.
  destruct (Qlt_bool _ _) eqn:E; simpl in *; rewrite point_eta in *.
  - apply Qlt_bool_iff in E. split; [lra | apply Qle_refl].
  - apply Qlt_bool_false in E. split; [apply Qle_refl | exact E].
Qed.

Section dominance.
Variable clock : nat → Q.
Variable polygon_geom : Polygon.t.
Variable tolerance : Q.

Lemma seed_column_genuine (fuel : nat) (x y : Q) (s s' : Env.t) :
  seed_column clock polygon_geom fuel x y s = Done s' →
  Forall (genuine polygon_geom) (cells s) → Forall (genuine polygon_geom) (cells s').
Proof.
  revert y s. induction fuel as [|fuel IH]; intros y s H Hg; simpl in H;
    destruct (Qlt_bool y (max_y polygon_geom)); try discriminate;
    try (injection H as <-; exact Hg).
  apply bind_Done in H as (s1 & Hput & H). apply (IH _ _ H).
  apply put_Done in Hput as (Hc & _). rewrite Hc.
  constructor; [apply init_genuine | exact Hg].
Qed.

Lemma seed_grid_genuine (budget fuel : nat) (x : Q) (s s' : Env.t) :
  seed_grid clock polygon_geom budget fuel x s = Done s' →
  Forall (genuine polygon_geom) (cells s) → Forall (genuine polygon_geom) (cells s').
Proof.
  revert x s. induction fuel as [|fuel IH]; intros x s H Hg; simpl in H;
    destruct (Qlt_bool x (max_x polygon_geom)); try discriminate;
    try (injection H as <-; exact Hg).
  apply bind_Done in H as (s1 & Hcol & H). apply (IH _ _ H).
  exact (seed_column_genuine _ _ _ _ _ Hcol Hg).
Qed.

(** The best cell at the end is a cell of this polygon, at least as far
    from the boundary as the best cell at the start and as every cell that
    was waiting. *)
Lemma search_dominates (fuel : nat) (best_cell : Cell.t) (s : Env.t)
    (best' : Cell.t) (s' : Env.t) :
  search clock polygon_geom tolerance fuel best_cell s = Done (best', s') →
  genuine polygon_geom best_cell → Forall (genuine polygon_geom) (cells s) →
  genuine polygon_geom best' ∧ Cell.d best_cell <= Cell.d best' ∧
  Forall (λ c, Cell.d c <= Cell.d best') (cells s).
Proof.
  revert best_cell s. induction fuel as [|fuel IH]; intros best_cell s H Hb Hg; simpl in H;
    destruct (Env.cell_queue s) as [|item q] eqn:E; try discriminate.
  - injection H as <- _. unfold cells. rewrite E.
    split; [exact Hb|]. split; [apply Qle_refl | constructor].
  - injection H as <- _. unfold cells. rewrite E.
    split; [exact Hb|]. split; [apply Qle_refl | constructor].
  - apply bind_Done in H as ([b1 s1] & Hit & H).
    unfold iteration in Hit. apply bind_Done in Hit as ([cell s0] & Hget & Hit).
    apply get_Done in Hget as (Hc & _). rewrite Hc in Hg |- *.
    apply Forall_cons in Hg as [Hcell Hg0].
    assert (Hb1 : b1 = improve best_cell cell ∧ cells s0 ⊆ cells s1 ∧
                  Forall (genuine polygon_geom) (cells s1)).
    { destruct (prune tolerance (improve best_cell cell) cell).
      - injection Hit as <- <-. split; [reflexivity|]. split; [reflexivity | exact Hg0].
      - apply bind_Done in Hit as (s2 & Hput & Hit). injection Hit as <- <-.
        apply put_all_Done in Hput as (Hc2 & _). split; [reflexivity|]. split.
        + intros c Hin. rewrite Hc2. apply elem_of_app. right. exact Hin.
        + rewrite Hc2. apply Forall_app. split; [apply children_genuine | exact Hg0]. }
    destruct Hb1 as (-> & Hsub & Hg1).
    destruct (IH _ _ H (improve_genuine _ _ _ Hb Hcell) Hg1) as (Hgen & Hle & Hall).
    split; [exact Hgen|].
    pose proof (improve_ge best_cell cell) as Hge.
    destruct (improve_cases best_cell cell) as [[Ei Hi] | [Ei Hi]]; rewrite Ei in *.
    + split; [exact Hle|]. constructor; [lra|].
      rewrite Forall_forall in Hall |- *. intros c Hin. apply Hall, Hsub, Hin.
    + split; [lra|]. constructor; [exact Hle|].
      rewrite Forall_forall in Hall |- *. intros c Hin. apply Hall, Hsub, Hin.
Qed.
End dominance.

(** X6: the point that [execute] returns is at least as far from the boundary
    as the centroid of the polygon and, when the search ran, as the centre of
    its bounding box. *)
Theorem pole_dominates_centroid (clock : nat → Q) (tolerance_value : option Q)
    (polygon_geom : Polygon.t) (rest : list Polygon.t) (fuel : nat)
    (out : Output.t) (s : Env.t) :
  execute clock tolerance_value (polygon_geom :: rest) fuel = Done (out, s) →
  Polygon.distanceTo polygon_geom (Polygon.centroid polygon_geom)
    <= Polygon.distanceTo polygon_geom (Output.shape out) ∧
  (degenerate polygon_geom (tolerance_of tolerance_value) = false →
   Polygon.distanceTo polygon_geom
       (Point.make (min_x polygon_geom ⊕ width polygon_geom ⊘ 2)
                   (min_y polygon_geom ⊕ height polygon_geom ⊘ 2))
     <= Polygon.distanceTo polygon_geom (Output.shape out)).
Proof.
  unfold execute, first_feature. simpl. intros H.
  apply bind_Done in H as ([p s1] & Hloc & H). injection H as <- <-. simpl.
  unfold locate in Hloc.
  destruct (degenerate polygon_geom (tolerance_of tolerance_value)).
  - injection Hloc as <- _. split; [apply Qle_refl | discriminate].
  - apply bind_Done in Hloc as (s0 & Hseed & Hloc).
    apply bind_Done in Hloc as ([b s2] & Hsearch & Hloc). injection Hloc as <- _.
    apply search_dominates in Hsearch as ([Hd _] & Hle & _).
    + rewrite <- Hd. destruct (initial_best_dominates polygon_geom) as [Hc Hb].
      split; [lra | intros _; lra].
    + apply initial_best_genuine.
    + apply (seed_grid_genuine _ _ _ _ _ _ _ Hseed). constructor.
Qed.

Lemma pole_dominates_centroid_witness :
  execute steady (Some (36 # 5)) [dumbbell] 3
  = Done ({| Output.shape := Point.make 5 5;
             Output.spatial_reference := 3857 |},
          {| Env.cell_queue := []; Env.clock_reads := 3; Env.pops := 3 |}) ∧
  Polygon.distanceTo dumbbell (Polygon.centroid dumbbell)
    <= Polygon.distanceTo dumbbell (Point.make 5 5).
Proof.
  assert (H : execute steady (Some (36 # 5)) [dumbbell] 3
    = Done ({| Output.shape := Point.make 5 5;
               Output.spatial_reference := 3857 |},
            {| Env.cell_queue := []; Env.clock_reads := 3; Env.pops := 3 |}))
    by (vm_compute; reflexivity).
  split; [exact H|].
  exact (proj1 (pole_dominates_centroid steady (Some (36 # 5)) dumbbell [] 3 _ _ H)).
Defined.

(** ** Positions in a heap *)

Lemma parent_child_cases (c pos : nat) :
  (0 < c)%nat → parent c = pos → c = (2 * pos + 1)%nat ∨ c = (2 * pos + 1 + 1)%nat.
Proof.
  unfold parent. intros Hc <-. pose proof (Nat.div_mod_eq (c - 1) 2) as E.
  pose proof (Nat.mod_upper_bound (c - 1) 2 ltac:(lia)). lia.
Qed.

Lemma parent_of_left (pos : nat) : parent (2 * pos + 1) = pos.
Proof.
  unfold parent. replace (2 * pos + 1 - 1)%nat with (pos * 2)%nat by lia.
  apply Nat.div_mul. lia.
Qed.

Lemma parent_of_right (pos : nat) : parent (2 * pos + 1 + 1) = pos.
Proof.
  unfold parent. replace (2 * pos + 1 + 1 - 1)%nat with (1 + pos * 2)%nat by lia.
  rewrite Nat.div_add by lia. reflexivity.
Qed.

Lemma parent_below (i : nat) : (0 < i)%nat → (parent i < i)%nat.
Proof.
  unfold parent. intros H.
  apply (Nat.le_lt_trans _ (i - 1)); [apply Nat.Div0.div_le_upper_bound; lia | lia].
Qed.

(** ** [heapq] keeps the heap order *)

Section heapq_order.
Context {A : Type} (lt : A → A → outcome bool) (le : A → A → Prop).
Hypothesis le_refl : ∀ a, le a a.
Hypothesis le_trans : ∀ a b c, le a b → le b c → le a c.
Hypothesis lt_true : ∀ a b, lt a b = Done true → le a b.
Hypothesis lt_false : ∀ a b, lt a b = Done false → le b a.

Lemma root_least (l : list A) (r : A) :
  heap_ordered le l → l !! 0%nat = Some r → Forall (le r) l.
Proof.
  intros Hord Hr. apply Forall_lookup. intros i.
  induction i as [i IH] using lt_wf_ind. intros y Hy.
  destruct i as [|i].
  - rewrite Hr in Hy. injection Hy as <-. apply le_refl.
  - pose proof (parent_below (S i) ltac:(lia)) as Hp.
    destruct (lookup_lt_is_Some_2 l (parent (S i))) as [p Hlook].
    { apply lookup_lt_Some in Hy. lia. }
    apply (le_trans _ p); [exact (IH _ Hp p Hlook)|].
    apply (Hord (S i)); [lia | exact Hy | exact Hlook].
Qed.

Lemma insert_ordered (heap : list A) (pos : nat) (x : A) :
  (pos < length heap)%nat →
  ordered_off le pos heap →
  fits_above le pos x heap →
  ((0 < pos)%nat → ∀ b, heap !! parent pos = Some b → le b x) →
  heap_ordered le (<[pos := x]> heap).
Proof.
  intros Hpos K1 K2 Hup i a b Hi Ha Hb.
  pose proof (parent_below i Hi) as Hlt.
  destruct (decide (i = pos)) as [->|Hne].
  - rewrite list_lookup_insert_eq in Ha by exact Hpos. injection Ha as <-.
    rewrite list_lookup_insert_ne in Hb by lia. exact (Hup Hi b Hb).
  - rewrite list_lookup_insert_ne in Ha by congruence.
    destruct (decide (parent i = pos)) as [E|Hnp].
    + rewrite E, list_lookup_insert_eq in Hb by exact Hpos. injection Hb as <-.
      exact (K2 i a Hi E Ha).
    + rewrite list_lookup_insert_ne in Hb by congruence.
      exact (K1 i a b Hi Hne Hnp Ha Hb).
Qed.

Lemma siftdown_loop_ordered (fuel : nat) (heap : list A) (x : A) (pos : nat)
    (heap' : list A) :
  (pos < length heap)%nat → (pos ≤ fuel)%nat →
  ordered_off le pos heap →
  fits_above le pos x heap →
  ((0 < pos)%nat → ∀ b, heap !! parent pos = Some b → fits_above le pos b heap) →
  siftdown_loop lt fuel heap x 0 pos = Done heap' →
  heap_ordered le heap'.
Proof.
  revert heap pos. induction fuel as [|fuel IH]; intros heap pos Hpos Hfuel K1 K2 K3 H;
    cbn [siftdown_loop] in H.
  - injection H as <-. apply insert_ordered; [exact Hpos | exact K1 | exact K2 | lia].
  - destruct (Nat.ltb_spec 0 pos) as [Hlt|Hge].
    2:{ injection H as <-. apply insert_ordered; [exact Hpos | exact K1 | exact K2 | lia]. }
    change ((pos - 1) / 2)%nat with (parent pos) in H.
    pose proof (parent_below pos Hlt) as Hq.
    destruct (heap !! parent pos) as [par|] eqn:Hpar; [|discriminate].
    apply bind_Done in H as (r & Hcmp & H). destruct r.
    + apply lt_true in Hcmp.
      apply IH in H; [exact H | rewrite length_insert; lia | lia | | |].
      * (* pairs away from the parent position *)
        intros i a b Hi Hne Hnp Ha Hb.
        assert (i ≠ pos) by (intros ->; contradiction).
        rewrite list_lookup_insert_ne in Ha by congruence.
        destruct (decide (parent i = pos)) as [E|Hnpos].
        -- rewrite E, list_lookup_insert_eq in Hb by exact Hpos. injection Hb as <-.
           exact (K3 Hlt par eq_refl i a Hi E Ha).
        -- rewrite list_lookup_insert_ne in Hb by congruence.
           exact (K1 i a b Hi ltac:(assumption) Hnpos Ha Hb).
      * (* the new item against the items below the parent position *)
        intros c a Hc Ec Ha.
        destruct (decide (c = pos)) as [->|Hcne].
        -- rewrite list_lookup_insert_eq in Ha by exact Hpos. injection Ha as <-.
           exact Hcmp.
        -- rewrite list_lookup_insert_ne in Ha by congruence.
           apply (le_trans _ par); [exact Hcmp|].
           apply (K1 c a par Hc Hcne); [lia | exact Ha | rewrite Ec; exact Hpar].
      * (* the item above the parent against the items below it *)
        intros Hq0 b Hb c a Hc Ec Ha.
        pose proof (parent_below (parent pos) Hq0) as Hqq.
        rewrite list_lookup_insert_ne in Hb by lia.
        assert (Hbp : le b par).
        { apply (K1 (parent pos) par b Hq0); [lia | lia | exact Hpar | exact Hb]. }
        destruct (decide (c = pos)) as [->|Hcne].
        -- rewrite list_lookup_insert_eq in Ha by exact Hpos. injection Ha as <-.
           exact Hbp.
        -- rewrite list_lookup_insert_ne in Ha by congruence.
           apply (le_trans _ par); [exact Hbp|].
           apply (K1 c a par Hc Hcne); [lia | exact Ha | rewrite Ec; exact Hpar].
    + apply lt_false in Hcmp. injection H as <-.
      apply insert_ordered; [exact Hpos | exact K1 | exact K2 |].
      intros _ b Hb. rewrite Hpar in Hb. injection Hb as <-. exact Hcmp.
Qed.

Lemma heappush_ordered (heap : list A) (item : A) (heap' : list A) :
  heap_ordered le heap → heappush lt heap item = Done heap' → heap_ordered le heap'.
Proof.
  intros Hord. unfold heappush, siftdown. rewrite list_lookup_middle by reflexivity.
  apply siftdown_loop_ordered.
  - rewrite length_app. simpl. lia.
  - lia.
  - intros i a b Hi Hne Hnp Ha Hb.
    assert (Hil : (i < length heap)%nat).
    { apply lookup_lt_Some in Ha. rewrite length_app in Ha. simpl in Ha. lia. }
    pose proof (parent_below i Hi).
    rewrite lookup_app_l in Ha by exact Hil. rewrite lookup_app_l in Hb by lia.
    exact (Hord i a b Hi Ha Hb).
  - intros c a Hc Ec Ha. exfalso.
    apply lookup_lt_Some in Ha. rewrite length_app in Ha. simpl in Ha.
    destruct (parent_child_cases c _ Hc Ec); lia.
  - intros _ b _ c a Hc Ec Ha. exfalso.
    apply lookup_lt_Some in Ha. rewrite length_app in Ha. simpl in Ha.
    destruct (parent_child_cases c _ Hc Ec); lia.
Qed.

Lemma siftup_child_least (heap : list A) (pos c : nat) :
  (if (2 * pos + 1 + 1 <? length heap)%nat
   then match heap !! (2 * pos + 1)%nat, heap !! (2 * pos + 1 + 1)%nat with
        | Some l, Some r =>
            b ← lt l r; Done (if b : bool then (2 * pos + 1)%nat else (2 * pos + 1 + 1)%nat)
        | _, _ => Raised IndexError
        end
   else Done (2 * pos + 1)%nat) = Done c →
  parent c = pos ∧
  ∀ s a_c a_s, (0 < s)%nat → parent s = pos →
               heap !! c = Some a_c → heap !! s = Some a_s → le a_c a_s.
Proof.
  intros H. destruct (Nat.ltb_spec (2 * pos + 1 + 1) (length heap)) as [Hr|Hr].
  - destruct (heap !! (2 * pos + 1)%nat) as [l|] eqn:Hl; [|discriminate].
    destruct (heap !! (2 * pos + 1 + 1)%nat) as [r|] eqn:Hr'; [|discriminate].
    apply bind_Done in H as (b & Hcmp & H). destruct b.
    + assert (c = (2 * pos + 1)%nat) as -> by congruence.
      apply lt_true in Hcmp. split; [apply parent_of_left|].
      intros s a_c a_s Hs Es Hc Ha. rewrite Hl in Hc. injection Hc as <-.
      destruct (parent_child_cases s pos Hs Es) as [-> | ->].
      * rewrite Hl in Ha. injection Ha as <-. apply le_refl.
      * rewrite Hr' in Ha. injection Ha as <-. exact Hcmp.
    + assert (c = (2 * pos + 1 + 1)%nat) as -> by congruence.
      apply lt_false in Hcmp. split; [apply parent_of_right|].
      intros s a_c a_s Hs Es Hc Ha. rewrite Hr' in Hc. injection Hc as <-.
      destruct (parent_child_cases s pos Hs Es) as [-> | ->].
      * rewrite Hl in Ha. injection Ha as <-. exact Hcmp.
      * rewrite Hr' in Ha. injection Ha as <-. apply le_refl.
  - assert (c = (2 * pos + 1)%nat) as -> by congruence.
    split; [apply parent_of_left|].
    intros s a_c a_s Hs Es Hc Ha.
    destruct (parent_child_cases s pos Hs Es) as [-> | ->].
    + rewrite Hc in Ha. injection Ha as <-. apply le_refl.
    + apply lookup_lt_Some in Ha. lia.
Qed.

Lemma siftup_loop_ordered (fuel : nat) (heap : list A) (pos : nat)
    (heap' : list A) (pos' : nat) :
  (pos < length heap)%nat → (length heap - pos ≤ fuel)%nat →
  ordered_off le pos heap →
  ((0 < pos)%nat → ∀ b, heap !! parent pos = Some b → fits_above le pos b heap) →
  siftup_loop lt fuel heap pos = Done (heap', pos') →
  (length heap' ≤ 2 * pos' + 1)%nat ∧ ordered_off le pos' heap'.
Proof.
  revert heap pos. induction fuel as [|fuel IH]; intros heap pos Hpos Hfuel K1 K3 H;
    [lia|]. cbn [siftup_loop] in H.
  destruct (Nat.ltb_spec (2 * pos + 1) (length heap)) as [Hc|Hc].
  2:{ injection H as <- <-. split; [lia | exact K1]. }
  apply bind_Done in H as (c & Hchild & H).
  pose proof (siftup_child _ _ _ _ Hchild Hc) as [Hpc Hcl].
  apply siftup_child_least in Hchild as [Ec Hleast].
  destruct (heap !! c) as [child|] eqn:Hlook; [|discriminate].
  apply IH in H; [exact H | rewrite length_insert; exact Hcl
                  | rewrite length_insert; lia | |].
  - intros i a b Hi Hne Hnp Ha Hb.
    pose proof (parent_below i Hi) as Hlt.
    destruct (decide (i = pos)) as [->|Hipos].
    + rewrite list_lookup_insert_eq in Ha by exact Hpos. injection Ha as <-.
      rewrite list_lookup_insert_ne in Hb by lia.
      exact (K3 Hi b Hb c child ltac:(lia) Ec Hlook).
    + rewrite list_lookup_insert_ne in Ha by congruence.
      destruct (decide (parent i = pos)) as [E|Hnpos].
      * rewrite E, list_lookup_insert_eq in Hb by exact Hpos. injection Hb as <-.
        exact (Hleast i child a Hi E eq_refl Ha).
      * rewrite list_lookup_insert_ne in Hb by congruence.
        exact (K1 i a b Hi Hipos Hnpos Ha Hb).
  - intros Hc0 b Hb c' a Hc' Ec' Ha.
    rewrite Ec, list_lookup_insert_eq in Hb by exact Hpos. injection Hb as <-.
    pose proof (parent_below c' Hc') as Hlt.
    rewrite list_lookup_insert_ne in Ha by lia.
    apply (K1 c' a child Hc'); [lia | lia | exact Ha | rewrite Ec'; exact Hlook].
Qed.

Lemma siftup_ordered (heap heap' : list A) :
  ordered_off le 0 heap → siftup lt heap 0 = Done heap' → heap_ordered le heap'.
Proof.
  intros K1. unfold siftup.
  destruct (heap !! 0%nat) as [newitem|] eqn:Hlook; [|discriminate].
  pose proof (lookup_lt_Some _ _ _ Hlook) as Hlen.
  intros H. apply bind_Done in H as ([h1 p1] & Hloop & H).
  pose proof (siftup_loop_Permutation lt _ _ _ _ _ Hlen Hloop) as [Hp1 _].
  apply siftup_loop_ordered in Hloop as [Hleaf K1'];
    [|exact Hlen | lia | exact K1 | lia].
  unfold siftdown in H. rewrite list_lookup_insert_eq in H by exact Hp1.
  revert H. apply siftdown_loop_ordered.
  - rewrite length_insert. exact Hp1.
  - lia.
  - intros i a b Hi Hne Hnp Ha Hb.
    rewrite list_lookup_insert_ne in Ha by congruence.
    rewrite list_lookup_insert_ne in Hb by congruence.
    exact (K1' i a b Hi Hne Hnp Ha Hb).
  - intros c a Hc Ec Ha. exfalso.
    apply lookup_lt_Some in Ha. rewrite length_insert in Ha.
    destruct (parent_child_cases c _ Hc Ec); lia.
  - intros _ b _ c a Hc Ec Ha. exfalso.
    apply lookup_lt_Some in Ha. rewrite length_insert in Ha.
    destruct (parent_child_cases c _ Hc Ec); lia.
Qed.

Lemma heappop_ordered (heap : list A) (item : A) (heap' : list A) :
  heap_ordered le heap → heappop lt heap = Done (item, heap') →
  heap_ordered le heap' ∧ Forall (le item) heap'.
Proof.
  intros Hord Hpop. pose proof (heappop_Permutation lt _ _ _ Hpop) as Hperm.
  unfold heappop in Hpop.
  destruct (last heap) as [lastelt|] eqn:Hlast; [|discriminate].
  pose proof (last_removelast heap lastelt Hlast) as E.
  destruct (removelast heap) as [|returnitem rest].
  - injection Hpop as <- <-. split; [|constructor].
    intros i x p _ Hx. rewrite lookup_nil in Hx. discriminate.
  - apply bind_Done in Hpop as (h1 & Hup & Hpop). injection Hpop as <- <-. split.
    + revert Hup. apply siftup_ordered.
      intros i a b Hi _ Hnp Ha Hb.
      destruct i as [|i]; [lia|]. destruct (parent (S i)) as [|j] eqn:Ej; [congruence|].
      simpl in Ha, Hb.
      apply (Hord (S i) a b); [lia | |]; rewrite E; simpl.
      * rewrite lookup_app_l by (eapply lookup_lt_Some; exact Ha). exact Ha.
      * rewrite Ej. simpl.
        rewrite lookup_app_l by (eapply lookup_lt_Some; exact Hb). exact Hb.
    + assert (Hall : Forall (le returnitem) heap).
      { apply root_least; [exact Hord|]. rewrite E. reflexivity. }
      rewrite Hperm in Hall. apply Forall_cons in Hall as [_ Hall]. exact Hall.
Qed.
End heapq_order.

(** ** The frontier is searched best first *)

Lemma entry_le_refl (a : entry) : entry_le a a.
Proof. right. split; [reflexivity | apply Qle_refl]. Qed.

Lemma entry_le_trans (a b c : entry) : entry_le a b → entry_le b c → entry_le a c.
Proof.
  unfold entry_le. intros [H1 | [E1 T1]] [H2 | [E2 T2]].
  - left. lra.
  - left. lra.
  - left. lra.
  - right. split; lra.
Qed.

Lemma tuple_lt_true (a b : entry) : tuple_lt a b = Done true → entry_le a b.
Proof.
  destruct a as [[ka ta] ca], b as [[kb tb] cb]. unfold tuple_lt, entry_le. simpl.
  destruct (Qeq_bool ka kb) eqn:Ek; simpl.
  - apply Qeq_bool_iff in Ek. destruct (Qeq_bool ta tb) eqn:Et; simpl; [discriminate|].
    intros H. injection H as H. apply Qlt_bool_iff in H. right. split; [exact Ek | lra].
  - intros H. injection H as H. apply Qlt_bool_iff in H. left. exact H.
Qed.

Lemma tuple_lt_false (a b : entry) : tuple_lt a b = Done false → entry_le b a.
Proof.
  destruct a as [[ka ta] ca], b as [[kb tb] cb]. unfold tuple_lt, entry_le. simpl.
  destruct (Qeq_bool ka kb) eqn:Ek; simpl.
  - apply Qeq_bool_iff in Ek. destruct (Qeq_bool ta tb) eqn:Et; simpl; [discriminate|].
    intros H. injection H as H. apply Qlt_bool_false in H. right. split; lra.
  - apply Qeq_bool_false in Ek. intros H. injection H as H. apply Qlt_bool_false in H.
    left. destruct (Qlt_le_dec kb ka) as [Hlt|Hle]; [exact Hlt|].
    exfalso. apply Ek. lra.
Qed.

Lemma entry_le_key (a b : entry) : entry_le a b → a.1.1 <= b.1.1.
Proof. intros [H | [H _]]; lra. Qed.

Lemma improve_keeps (best_cell cell : Cell.t) :
  Cell.d best_cell <= Cell.d (improve best_cell cell).
Proof.
  destruct (improve_cases best_cell cell) as [[-> _] | [-> H]]; lra.
Qed.

Section frontier.
Variable clock : nat → Q.
Variable polygon_geom : Polygon.t.
Variable tolerance : Q.

Lemma start_frontier_ok : frontier_ok Env.start.
Proof.
  split; [|constructor]. intros i x p _ H. simpl in H. rewrite lookup_nil in H.
  discriminate.
Qed.

Lemma put_frontier_ok (c : Cell.t) (s s' : Env.t) :
  frontier_ok s → put clock c s = Done s' → frontier_ok s'.
Proof.
  intros [Hord Hkey] H. unfold put in H. apply bind_Done in H as (q & Hq & H).
  injection H as <-. split; simpl.
  - eapply heappush_ordered; [.. | exact Hq];
      first [exact entry_le_trans | exact tuple_lt_true | exact tuple_lt_false | exact Hord].
  - apply heappush_Permutation in Hq. rewrite Hq. constructor; [reflexivity | exact Hkey].
Qed.

Lemma put_all_frontier_ok (cs : list Cell.t) (s s' : Env.t) :
  frontier_ok s → put_all clock cs s = Done s' → frontier_ok s'.
Proof.
  revert s. induction cs as [|c cs IH]; intros s Hs H; simpl in H.
  - injection H as <-. exact Hs.
  - apply bind_Done in H as (s1 & Hput & H).
    exact (IH _ (put_frontier_ok _ _ _ Hs Hput) H).
Qed.

Lemma get_frontier_ok (s : Env.t) (cell : Cell.t) (s' : Env.t) :
  frontier_ok s → get s = Done (cell, s') →
  frontier_ok s' ∧ Forall (λ c, Cell.max c <= Cell.max cell) (cells s').
Proof.
  intros [Hord Hkey] H. unfold get in H. apply bind_Done in H as ([item q] & Hq & H).
  injection H as <- <-.
  pose proof (heappop_Permutation _ _ _ _ Hq) as Hperm.
  assert (heap_ordered entry_le q ∧ Forall (entry_le item) q) as [Hord' Hleast].
  { eapply heappop_ordered; [.. | exact Hq];
      first [exact entry_le_refl | exact entry_le_trans | exact tuple_lt_true
            | exact tuple_lt_false | exact Hord]. }
  rewrite Hperm in Hkey. apply Forall_cons in Hkey as [Hitem Hkey].
  split; [split; [exact Hord' | exact Hkey]|].
  unfold cells. simpl. apply Forall_fmap. rewrite Forall_forall in *.
  intros e He. pose proof (entry_le_key _ _ (Hleast e He)) as Hle.
  rewrite Hitem, (Hkey e He) in Hle. unfold entry_cell, compose. lra.
Qed.

Lemma iteration_frontier_ok (best_cell : Cell.t) (s : Env.t) (best' : Cell.t) (s' : Env.t) :
  frontier_ok s → iteration clock polygon_geom tolerance best_cell s = Done (best', s') →
  frontier_ok s'.
Proof.
  intros Hs H. unfold iteration in H. apply bind_Done in H as ([cell s1] & Hget & H).
  apply (get_frontier_ok _ _ _ Hs) in Hget as [Hs1 _].
  destruct (prune tolerance (improve best_cell cell) cell).
  - injection H as _ <-. exact Hs1.
  - apply bind_Done in H as (s2 & Hput & H). injection H as _ <-.
    exact (put_all_frontier_ok _ _ _ Hs1 Hput).
Qed.

Lemma passes_frontier_ok (n : nat) (best_cell : Cell.t) (s : Env.t)
    (best' : Cell.t) (s' : Env.t) :
  frontier_ok s → passes clock polygon_geom tolerance n best_cell s = Done (best', s') →
  frontier_ok s'.
Proof.
  revert best_cell s. induction n as [|n IH]; intros best_cell s Hs H; simpl in H.
  - injection H as _ <-. exact Hs.
  - apply bind_Done in H as ([b1 s1] & Hit & H).
    exact (IH _ _ (iteration_frontier_ok _ _ _ _ Hs Hit) H).
Qed.

Lemma seed_column_frontier_ok (fuel : nat) (x y : Q) (s s' : Env.t) :
  frontier_ok s → seed_column clock polygon_geom fuel x y s = Done s' → frontier_ok s'.
Proof.
  revert y s. induction fuel as [|fuel IH]; intros y s Hs H; cbn [seed_column] in H;
    destruct (Qlt_bool y (max_y polygon_geom)); try discriminate;
    try (injection H as <-; exact Hs).
  apply bind_Done in H as (s1 & Hput & H).
  exact (IH _ _ (put_frontier_ok _ _ _ Hs Hput) H).
Qed.

Lemma seed_grid_frontier_ok (budget fuel : nat) (x : Q) (s s' : Env.t) :
  frontier_ok s → seed_grid clock polygon_geom budget fuel x s = Done s' → frontier_ok s'.
Proof.
  revert x s. induction fuel as [|fuel IH]; intros x s Hs H; cbn [seed_grid] in H;
    destruct (Qlt_bool x (max_x polygon_geom)); try discriminate;
    try (injection H as <-; exact Hs).
  apply bind_Done in H as (s1 & Hcol & H).
  exact (IH _ _ (seed_column_frontier_ok _ _ _ _ _ Hs Hcol) H).
Qed.

(** Once every waiting cell is within the tolerance of the best one, the
    loop makes no cell any more. *)
Lemma search_drains (fuel : nat) (best_cell : Cell.t) (s : Env.t)
    (best' : Cell.t) (s' : Env.t) :
  Forall (λ c, Cell.max c ⊖ Cell.d best_cell <= tolerance) (cells s) →
  search clock polygon_geom tolerance fuel best_cell s = Done (best', s') →
  Env.clock_reads s' = Env.clock_reads s ∧
  Env.pops s' = (Env.pops s + length (cells s))%nat.
Proof.
  revert best_cell s. induction fuel as [|fuel IH]; intros best_cell s Hall H;
    cbn [search] in H; unfold cells in *;
    destruct (Env.cell_queue s) as [|e q] eqn:Eq; try discriminate;
    try (injection H as _ <-; simpl; split; [reflexivity | lia]).
  apply bind_Done in H as ([b1 s1] & Hit & H).
  unfold iteration in Hit. apply bind_Done in Hit as ([cell s2] & Hget & Hit).
  apply get_Done in Hget as (Hperm & Hreads & Hpops). unfold cells in Hperm.
  rewrite Eq in Hperm. rewrite Hperm in Hall.
  apply Forall_cons in Hall as [Hcell Hrest].
  pose proof (improve_keeps best_cell cell) as Hkeep.
  assert (Hpr : prune tolerance (improve best_cell cell) cell = true).
  { unfold prune. apply Qle_bool_iff. apply (Qle_trans _ _ _ (fsub_monotone
      (Cell.max cell) (Cell.max cell) (Cell.d (improve best_cell cell)) (Cell.d best_cell)
      (Qle_refl _) Hkeep) Hcell). }
  rewrite Hpr in Hit. injection Hit as <- <-.
  apply IH in H as [H1 H2].
  - split; [congruence|]. rewrite H2, Hpops.
    apply Permutation_length in Hperm. unfold cells in *.
    rewrite ?length_fmap in *. simpl in *. rewrite ?length_fmap in *. lia.
  - apply (Forall_impl _ _ _ Hrest). intros c Hc. simpl in Hc.
    exact (Qle_trans _ _ _ (fsub_monotone _ _ _ _ (Qle_refl (Cell.max c)) Hkeep) Hc).
Qed.
End frontier.

(** X10: at every pass of the main loop the cell that [cell_queue.get()] hands
    out has the largest bound [max] of all the cells in the queue: with the
    grid of lines 105-112 in the queue and after any number of passes, no
    cell left behind by a [get] has a larger [max] than the cell it
    returned. *)
Theorem most_promising_cell_first (clock : nat → Q) (polygon_geom : Polygon.t)
    (tolerance : Q) (budget fuel n : nat) (s0 : Env.t) (best_cell : Cell.t) (s : Env.t)
    (cell : Cell.t) (s1 : Env.t) :
  seed_grid clock polygon_geom budget fuel (min_x polygon_geom) Env.start = Done s0 →
  passes clock polygon_geom tolerance n (initial_best polygon_geom) s0 = Done (best_cell, s) →
  get s = Done (cell, s1) →
  Forall (λ c, Cell.max c <= Cell.max cell) (cells s1).
Proof.
  intros Hseed Hpasses Hget.
  pose proof (seed_grid_frontier_ok _ _ _ _ _ _ _ start_frontier_ok Hseed) as H0.
  pose proof (passes_frontier_ok _ _ _ _ _ _ _ _ H0 Hpasses) as Hs.
  exact (proj2 (get_frontier_ok _ _ _ Hs Hget)).
Qed.

(** X11: after the first cell that line 133 drops, no cell is subdivided any
    more: the rest of the loop only empties the queue, one [get] per waiting
    cell and no further reading of the clock. *)
Theorem first_pruned_cell_ends_subdivision (clock : nat → Q) (polygon_geom : Polygon.t)
    (tolerance : Q) (budget fuel n fuel' : nat) (s0 : Env.t) (best_cell : Cell.t)
    (s : Env.t) (cell : Cell.t) (s1 : Env.t) (best' : Cell.t) (s' : Env.t) :
  seed_grid clock polygon_geom budget fuel (min_x polygon_geom) Env.start = Done s0 →
  passes clock polygon_geom tolerance n (initial_best polygon_geom) s0 = Done (best_cell, s) →
  get s = Done (cell, s1) →
  prune tolerance (improve best_cell cell) cell = true →
  search clock polygon_geom tolerance fuel' (improve best_cell cell) s1 = Done (best', s') →
  Env.clock_reads s' = Env.clock_reads s1 ∧
  Env.pops s' = (Env.pops s1 + length (cells s1))%nat.
Proof.
  intros Hseed Hpasses Hget Hpr Hsearch.
  pose proof (seed_grid_frontier_ok _ _ _ _ _ _ _ start_frontier_ok Hseed) as H0.
  pose proof (passes_frontier_ok _ _ _ _ _ _ _ _ H0 Hpasses) as Hs.
  destruct (get_frontier_ok _ _ _ Hs Hget) as [_ Hmax].
  revert Hsearch. apply search_drains.
  unfold prune in Hpr. apply Qle_bool_iff in Hpr.
  apply (Forall_impl _ _ _ Hmax). intros c Hc. simpl in Hc.
  exact (Qle_trans _ _ _ (fsub_monotone _ _ _ _ Hc (Qle_refl _)) Hpr).
Qed.

Lemma most_promising_cell_first_witness :
  seed_grid steady square 1 1 (min_x square) Env.start = Done square_grid ∧
  passes steady square (1 # 10) 5 (initial_best square) square_grid
  = Done (square_fifth.1, square_fifth.2) ∧
  get square_fifth.2 = Done (square_sixth_get.1, square_sixth_get.2) ∧
  Forall (λ c, Cell.max c <= Cell.max square_sixth_get.1) (cells square_sixth_get.2).
Proof.
  assert (H1 : seed_grid steady square 1 1 (min_x square) Env.start = Done square_grid)
    by (vm_compute; reflexivity).
  assert (H2 : passes steady square (1 # 10) 5 (initial_best square) square_grid
               = Done (square_fifth.1, square_fifth.2)) by (vm_compute; reflexivity).
  assert (H3 : get square_fifth.2 = Done (square_sixth_get.1, square_sixth_get.2))
    by (vm_compute; reflexivity).
  split; [exact H1|]. split; [exact H2|]. split; [exact H3|].
  exact (most_promising_cell_first steady square (1 # 10) 1 1 5 _ _ _ _ _ H1 H2 H3).
Defined.

Lemma first_pruned_cell_ends_subdivision_witness :
  seed_grid steady square 1 1 (min_x square) Env.start = Done square_grid ∧
  passes steady square 2 1 (initial_best square) square_grid
  = Done (square_coarse.1, square_coarse.2) ∧
  get square_coarse.2 = Done (square_coarse_get.1, square_coarse_get.2) ∧
  prune 2 (improve square_coarse.1 square_coarse_get.1) square_coarse_get.1 = true ∧
  search steady square 2 10 (improve square_coarse.1 square_coarse_get.1)
    square_coarse_get.2 = Done (square_coarse_end.1, square_coarse_end.2) ∧
  Env.clock_reads square_coarse_end.2 = Env.clock_reads square_coarse_get.2 ∧
  Env.pops square_coarse_end.2
  = (Env.pops square_coarse_get.2 + length (cells square_coarse_get.2))%nat.
Proof.
  assert (H1 : seed_grid steady square 1 1 (min_x square) Env.start = Done square_grid)
    by (vm_compute; reflexivity).
  assert (H2 : passes steady square 2 1 (initial_best square) square_grid
               = Done (square_coarse.1, square_coarse.2)) by (vm_compute; reflexivity).
  assert (H3 : get square_coarse.2 = Done (square_coarse_get.1, square_coarse_get.2))
    by (vm_compute; reflexivity).
  assert (H4 : prune 2 (improve square_coarse.1 square_coarse_get.1)
                 square_coarse_get.1 = true) by (vm_compute; reflexivity).
  assert (H5 : search steady square 2 10 (improve square_coarse.1 square_coarse_get.1)
                 square_coarse_get.2 = Done (square_coarse_end.1, square_coarse_end.2))
    by (vm_compute; reflexivity).
  split; [exact H1|]. split; [exact H2|]. split; [exact H3|]. split; [exact H4|].
  split; [exact H5|].
  exact (first_pruned_cell_ends_subdivision steady square 2 1 1 1 10 _ _ _ _ _ _ _
           H1 H2 H3 H4 H5).
Defined.
